(** * pylisp: a shallow embedding of [pylisp/parser.py]

    The program is a small interpreter for an operand-last S-expression
    language: [tokenize] and [parse] build a tree of [Atom] and [List]
    objects, [List.eval] / [Atom.eval] walk it against a chain of [Env]
    dictionaries, [Udf] is the closure object and [Program.__init__]
    installs the primitive table.

    Conventions of the embedding.
    - A Python [str] is a Rocq [string]; its characters stand for the code
      points 0..255.
    - A Python [int] is a [Z]; a Python [float] is an IEEE binary64 value of
      [SpecFloat] (precision 53, maximal exponent 1024).
    - Every Python object the interpreter can handle is a [value]; the
      classes [Atom], [List] and [Udf] are constructors of that type, so a
      [List] is syntax and run-time data at once, as in the source.
    - [Env] objects are mutable and shared by reference: they live in a
      store [heap] and are named by their index.
    - A computation is a function from the store to an [outcome] and the
      store afterwards.  [Raise] is a Python exception; [OutOfFuel] bounds the
      depth of nested [eval] calls; [Unsupported] marks the few host
      operations left outside the embedding (results that depend on object
      identity or on the textual form of a function). *)

From Stdlib Require Import ZArith Ascii String DecimalString DecimalZ DecimalPos
  DecimalFacts.
From Stdlib Require Import SpecFloat.
From stdpp Require Import base tactics option list.

Local Open Scope string_scope.
Local Open Scope Z_scope.

(** ** Host strings *)

Module Str.

(** [str.isspace] on one character (code points below 256). *)
Definition isspace (c : ascii) : bool :=
  let n := nat_of_ascii c in
  ((9 <=? n) && (n <=? 13) || (28 <=? n) && (n <=? 32)
   || (n =? 133) || (n =? 160))%nat.

(** [s.replace(old, new)] for a one-character [old]. *)
Fixpoint replace (old : ascii) (new : string) (s : string) : string :=
  match s with
  | EmptyString => EmptyString
  | String c s' =>
      if Ascii.eqb c old then new ++ replace old new s'
      else String c (replace old new s')
  end.

Definition flush (word : string) : list string :=
  match word with EmptyString => [] | _ => [word] end.

(** [s.split()]: maximal runs of non-whitespace characters. [word] is the
    run being read. *)
Fixpoint split_from (word : string) (s : string) : list string :=
  match s with
  | EmptyString => flush word
  | String c s' =>
      if isspace c then flush word ++ split_from EmptyString s'
      else split_from (word ++ String c EmptyString) s'
  end.

Definition split (s : string) : list string := split_from EmptyString s.

(** [sep.join(l)] *)
Fixpoint join (sep : string) (l : list string) : string :=
  match l with
  | [] => EmptyString
  | [x] => x
  | x :: l' => x ++ sep ++ join sep l'
  end.

Fixpoint lstrip (s : string) : string :=
  match s with
  | String c s' => if isspace c then lstrip s' else s
  | EmptyString => EmptyString
  end.

Fixpoint rstrip (s : string) : string :=
  match s with
  | EmptyString => EmptyString
  | String c s' =>
      match rstrip s' with
      | EmptyString => if isspace c then EmptyString else String c EmptyString
      | r => String c r
      end
  end.

Definition strip (s : string) : string := rstrip (lstrip s).

(** [c.lower()] on ASCII letters. *)
Definition lower (c : ascii) : ascii :=
  let n := nat_of_ascii c in
  if ((65 <=? n) && (n <=? 90))%nat then ascii_of_nat (n + 32) else c.

Fixpoint lower_str (s : string) : string :=
  match s with
  | EmptyString => EmptyString
  | String c s' => String (lower c) (lower_str s')
  end.

(** [str(z)] for an [int]. *)
Definition of_Z (z : Z) : string := NilEmpty.string_of_int (Z.to_int z).

(** [s[:k]] and [s[k:]] *)
Fixpoint take (k : nat) (s : string) : string :=
  match k, s with
  | S k', String c s' => String c (take k' s')
  | _, _ => EmptyString
  end.

Fixpoint drop (k : nat) (s : string) : string :=
  match k, s with
  | S k', String _ s' => drop k' s'
  | _, _ => s
  end.

(** ["0" * k] *)
Fixpoint zeros (k : nat) : string :=
  match k with
  | O => EmptyString
  | S k' => String "0" (zeros k')
  end.

End Str.

(** ** Host numbers *)

Abbreviation float := spec_float.

Module Num.

Definition prec : Z := 53.
Definition emax : Z := 1024.

Definition digit_of (c : ascii) : option Z :=
  let n := nat_of_ascii c in
  if ((48 <=? n) && (n <=? 57))%nat then Some (Z.of_nat (n - 48)) else None.

(** Reads the rest of a [digitpart ::= digit (["_"] digit)*] once its first
    digit is in [acc]; [n] counts the digits. Returns what follows. *)
Fixpoint more_digits (acc : Z) (n : nat) (s : string) : Z * nat * string :=
  match s with
  | EmptyString => (acc, n, EmptyString)
  | String c s' =>
      match digit_of c with
      | Some d => more_digits (10 * acc + d) (S n) s'
      | None =>
          if Ascii.eqb c "_" then
            match s' with
            | String c2 s'' =>
                match digit_of c2 with
                | Some d => more_digits (10 * acc + d) (S n) s''
                | None => (acc, n, s)
                end
            | EmptyString => (acc, n, s)
            end
          else (acc, n, s)
      end
  end.

(** [digitpart ::= digit (["_"] digit)*], read after the digits whose value
    is [acc]: the value, the number of digits read and what follows. *)
Definition digitpart (acc : Z) (s : string) : option (Z * nat * string) :=
  match s with
  | String c s' =>
      match digit_of c with
      | Some d => Some (more_digits (10 * acc + d) 1 s')
      | None => None
      end
  | EmptyString => None
  end.

(** An optional sign: [true] for "-". *)
Definition sign (s : string) : bool * string :=
  match s with
  | String "-" s' => (true, s')
  | String "+" s' => (false, s')
  | _ => (false, s)
  end.

(** [int(token)]: [None] stands for [ValueError]. *)
Definition int_of_str (token : string) : option Z :=
  let '(neg, s) := sign (Str.strip token) in
  match digitpart 0 s with
  | Some (v, _, EmptyString) => Some (if neg then - v else v)
  | _ => None
  end.

(** The decimal number [m * 10^e], rounded to the nearest binary64. *)
Definition float_of_decimal (neg : bool) (m : Z) (e : Z) : float :=
  match m with
  | Zpos p =>
      if 0 <=? e then
        binary_normalize prec emax (if neg then - (m * 10 ^ e) else m * 10 ^ e) 0 false
      else
        SFdiv prec emax (S754_finite neg p 0)
              (S754_finite false (Z.to_pos (10 ^ (- e))) 0)
  | _ => S754_zero neg
  end.

(** [exponent ::= ("e" | "E") ["+" | "-"] digitpart], to the end. *)
Definition exponent (s : string) : option Z :=
  match s with
  | EmptyString => Some 0
  | String c s' =>
      if Ascii.eqb (Str.lower c) "e" then
        let '(neg, s'') := sign s' in
        match digitpart 0 s'' with
        | Some (v, _, EmptyString) => Some (if neg then - v else v)
        | _ => None
        end
      else None
  end.

(** What follows the integral digits, whose value is [m]: an optional
    fraction, whose digits continue the mantissa, and an optional exponent.
    [any] tells whether an integral digit has been read. *)
Definition fraction (neg : bool) (m : Z) (any : bool) (s : string)
  : option float :=
  match s with
  | String "." s' =>
      match digitpart m s' with
      | Some (m', k, rest) =>
          match exponent rest with
          | Some x => Some (float_of_decimal neg m' (x - Z.of_nat k))
          | None => None
          end
      | None =>
          if any then
            match exponent s' with
            | Some x => Some (float_of_decimal neg m x)
            | None => None
            end
          else None
      end
  | _ =>
      if any then
        match exponent s with
        | Some x => Some (float_of_decimal neg m x)
        | None => None
        end
      else None
  end.

(** [float(token)]: [None] stands for [ValueError]. *)
Definition float_of_str (token : string) : option float :=
  let '(neg, s) := sign (Str.strip token) in
  let low := Str.lower_str s in
  if (String.eqb low "inf" || String.eqb low "infinity")%bool
  then Some (S754_infinity neg)
  else if String.eqb low "nan" then Some S754_nan
  else
    match digitpart 0 s with
    | Some (m, _, rest) => fraction neg m true rest
    | None => fraction neg 0 false s
    end.

(** *** [repr] of a [float]

    [str(x)] of a float is [repr(x)]: the shortest string of decimal digits
    that [float] reads back as [x] (the nearest to [x] if two of that
    length do), laid out by CPython's format code [r]. *)

(** The same float, bit for bit. *)
Definition same_float (f g : float) : bool :=
  match f, g with
  | S754_zero s, S754_zero t => Bool.eqb s t
  | S754_infinity s, S754_infinity t => Bool.eqb s t
  | S754_nan, S754_nan => true
  | S754_finite s m e, S754_finite t n k =>
      (Bool.eqb s t && Pos.eqb m n && Z.eqb e k)%bool
  | _, _ => false
  end.

(** [float(text) == f], as the same float. *)
Definition reads_as (text : string) (f : float) : bool :=
  match float_of_str text with
  | Some g => same_float g f
  | None => false
  end.

(** The integral part of [m * 2^e / 10^q]. *)
Definition scaled (m : positive) (e q : Z) : Z :=
  (Zpos m * 2 ^ Z.max e 0 * 10 ^ Z.max (- q) 0)
  / (2 ^ Z.max (- e) 0 * 10 ^ Z.max q 0).

(** The number of decimal digits of a positive integer. *)
Definition ndigits (z : Z) : Z := Z.of_nat (String.length (Str.of_Z z)).

(** The decimal exponent [k] of [x = m * 2^e]: [10^k <= x < 10^(k+1)].
    A positive binary64 number is above [10^-400]. *)
Definition decexp (m : positive) (e : Z) : Z :=
  ndigits (scaled m e (- 400)) - 401.

(** Trailing zeros are no digits of the result: [d * 10^q] with the zeros
    at the end of [d] moved into the exponent. *)
Fixpoint strip_zeros (fuel : nat) (d q : Z) : Z * Z :=
  match fuel with
  | O => (d, q)
  | S fuel =>
      if ((0 <? d) && (d mod 10 =? 0))%bool
      then strip_zeros fuel (d / 10) (q + 1)
      else (d, q)
  end.

(** An exponent is written with two digits or more. *)
Definition two_digits (x : Z) : string :=
  if x <? 10 then String "0" (Str.of_Z x) else Str.of_Z x.

(** The layout of format code [r] for the digits [ds], the decimal point
    standing [decpt] places after the start of the digits: with an exponent
    if [decpt <= -4] or [decpt > 16], else as a plain decimal number that
    always shows a point. *)
Definition layout (neg : bool) (ds : string) (decpt : Z) : string :=
  let n := Z.of_nat (String.length ds) in
  let body :=
    if ((decpt <=? - 4) || (16 <? decpt))%bool then
      let mantissa :=
        match ds with
        | String c (String c' rest) => String c (String "." (String c' rest))
        | _ => ds
        end in
      (mantissa ++ String "e"
         (String (if (decpt - 1 <? 0)%Z then "-"%char else "+"%char)
            (two_digits (Z.abs (decpt - 1)))))%string
    else if decpt <=? 0 then
      (String "0" (String "." (Str.zeros (Z.to_nat (- decpt)) ++ ds)))%string
    else if n <=? decpt then
      (ds ++ Str.zeros (Z.to_nat (decpt - n)) ++ ".0")%string
    else
      (Str.take (Z.to_nat decpt) ds ++ String "." (Str.drop (Z.to_nat decpt) ds))%string
  in
  if neg then String "-" body else body.

(** The text of the decimal number [d * 10^q]. *)
Definition decimal_text (neg : bool) (d q : Z) : string :=
  let '(d', q') := strip_zeros 20 d q in
  let ds := Str.of_Z d' in
  layout neg ds (q' + Z.of_nat (String.length ds)).

(** The decimal numbers of [n] digits on both sides of [x = m * 2^e], the
    nearer one first. *)
Definition candidates (m : positive) (e k n : Z) : list (Z * Z) :=
  let q := k - n + 1 in
  let lo := scaled m e q in
  if scaled (2 * m) e q =? 2 * lo
  then [(lo, q); (lo + 1, q)]
  else [(lo + 1, q); (lo, q)].

(** The first text, among those of the candidates, that is read back as
    [f]. *)
Fixpoint first_read_back (neg : bool) (cs : list (Z * Z)) (f : float)
  : option string :=
  match cs with
  | [] => None
  | (d, q) :: cs' =>
      let text := decimal_text neg d q in
      if reads_as text f then Some text else first_read_back neg cs' f
  end.

(** The search for the shortest text, from [n] digits on, with [count]
    lengths to try. *)
Fixpoint shortest (count : nat) (n : Z) (neg : bool) (m : positive) (e k : Z)
  (f : float) : option string :=
  match count with
  | O => None
  | S count =>
      match first_read_back neg (candidates m e k n) f with
      | Some text => Some text
      | None => shortest count (n + 1) neg m e k f
      end
  end.

(** [repr(f)]. Seventeen digits identify a binary64 number; [None] if the
    search among them fails. *)
Definition repr (f : float) : option string :=
  match f with
  | S754_nan => Some "nan"
  | S754_infinity s => Some (if s then "-inf" else "inf")
  | S754_zero s => Some (if s then "-0.0" else "0.0")
  | S754_finite s m e => shortest 17 1 s m e (decexp m e) f
  end.

End Num.

(** ** Objects *)

(** An [Env] object is named by its index in the store. *)
Definition loc := nat.

(** The callables that [Program.__init__] puts in the root environment. *)
Inductive prim :=
| p_add | p_sub | p_mul | p_div | p_lt | p_gt | p_eq
| p_car | p_cdr | p_cons | p_print.

(** Python objects. [Atom x] is an instance of class [Atom] with field [x];
    [List items] an instance of class [List]; [Udf arg_names body env] an
    instance of class [Udf], whose [env] is a reference. *)
Unset Elimination Schemes.
Inductive value :=
| PNone
| PBool (b : bool)
| PInt (z : Z)
| PFloat (f : float)
| PStr (s : string)
| Atom (x : value)
| List (items : list value)
| Udf (arg_names body : value) (env : loc)
| Prim (p : prim).
Set Elimination Schemes.

Inductive exn :=
| SyntaxError (msg : string)
| IndexError
| TypeError
| AttributeError
| AssertionError
| ZeroDivisionError
| OverflowError.

Inductive outcome (A : Type) :=
| Ok (a : A)
| Raise (e : exn)
| OutOfFuel
| Unsupported.
Arguments Ok {A} a.
Arguments Raise {A} e.
Arguments OutOfFuel {A}.
Arguments Unsupported {A}.

Definition outcome_bind {A B} (o : outcome A) (k : A -> outcome B) : outcome B :=
  match o with
  | Ok a => k a
  | Raise e => Raise e
  | OutOfFuel => OutOfFuel
  | Unsupported => Unsupported
  end.

(** ** Lexer and parser *)

Definition SEPARATOR := " ".
Definition KW_ATOM := "atom?".
Definition KW_QUOTE := "quote".
Definition KW_DEFINE := "define".
Definition KW_LAMBDA := "lambda".
Definition KW_COND := "cond".

(** The deque of tokens is a list; [popleft] takes its head. *)
Definition tokenize (s : string) : list string :=
  Str.split (Str.replace ")" " ) " (Str.replace "(" " ( " s)).

(** [Atom.__init__]: the token is kept as an [int] if [int(token)] accepts
    it, else as a [float] if [float(token)] does, else as it is. *)
Definition Atom_init (token : string) : value :=
  match Num.int_of_str token with
  | Some z => Atom (PInt z)
  | None =>
      match Num.float_of_str token with
      | Some f => Atom (PFloat f)
      | None => Atom (PStr token)
      end
  end.

(** [parse] returns the tree and the tokens it left in the deque.
    [parse_while] is the [while tokens[0] != ")"] loop, [sexp] the list
    built so far. One unit of fuel is spent per call and per iteration. *)
Fixpoint parse_fuel (fuel : nat) (tokens : list string) {struct fuel}
  : outcome (value * list string) :=
  match fuel with
  | O => OutOfFuel
  | S fuel =>
      match tokens with
      | [] => Raise IndexError
      | token :: tokens =>
          if String.eqb token "(" then parse_while fuel [] tokens
          else if String.eqb token ")" then Raise (SyntaxError "Unexpected )")
          else Ok (Atom_init token, tokens)
      end
  end
with parse_while (fuel : nat) (sexp : list value) (tokens : list string)
  {struct fuel} : outcome (value * list string) :=
  match fuel with
  | O => OutOfFuel
  | S fuel =>
      match tokens with
      | [] => Raise IndexError
      | t0 :: rest =>
          if negb (String.eqb t0 ")") then
            match parse_fuel fuel tokens with
            | Ok (child, tokens') =>
                match tokens' with
                | [] => Raise (SyntaxError "Missing )")
                | _ => parse_while fuel (sexp ++ [child])%list tokens'
                end
            | Raise e => Raise e
            | OutOfFuel => OutOfFuel
            | Unsupported => Unsupported
            end
          else Ok (List sexp, rest)
      end
  end.

Definition parse (tokens : list string) : outcome (value * list string) :=
  parse_fuel (2 * length tokens + 1) tokens.

(** The loop of [Program.__init__]: [while tokens: sexps.append(parse(tokens))]. *)
Fixpoint parse_all (fuel : nat) (sexps : list value) (tokens : list string)
  : outcome (list value) :=
  match tokens with
  | [] => Ok sexps
  | _ =>
      match fuel with
      | O => OutOfFuel
      | S fuel =>
          outcome_bind (parse tokens) (fun '(sexp, tokens') =>
            parse_all fuel (sexps ++ [sexp])%list tokens')
      end
  end.

(** ** Display text ([__str__]) *)

(** [str(v)]. [None] where the text is not modelled: the address-bearing
    default text of closures and functions. *)
Fixpoint py_str (v : value) : option string :=
  match v with
  | PNone => Some "None"
  | PBool b => Some (if b then "True" else "False")
  | PInt z => Some (Str.of_Z z)
  | PFloat f => Num.repr f
  | PStr s => Some s
  | Atom x => py_str x
  | List items =>
      match mapM py_str items with
      | Some texts => Some ("'(" ++ Str.join " " texts ++ ")")%string
      | None => None
      end
  | Udf _ _ _ => None
  | Prim _ => None
  end.

(** ** Arithmetic and comparison of the host *)

Module Arith.
Import Num.

(** The numeric types: [int] (with [bool] as its subclass) and [float]. *)
Inductive num := NInt (z : Z) | NFloat (f : float).

Definition as_num (v : value) : option num :=
  match v with
  | PBool b => Some (NInt (if b then 1 else 0))
  | PInt z => Some (NInt z)
  | PFloat f => Some (NFloat f)
  | _ => None
  end.

(** [float(z)]: nearest binary64, [OverflowError] beyond the range. *)
Definition float_of_Z (z : Z) : outcome float :=
  match binary_normalize prec emax z 0 false with
  | S754_infinity _ => Raise OverflowError
  | f => Ok f
  end.

Definition to_float (n : num) : outcome float :=
  match n with
  | NInt z => float_of_Z z
  | NFloat f => Ok f
  end.

(** A binary operator on numbers: exact on two [int]s, otherwise on the
    operands converted to [float]. *)
Definition binop (fz : Z -> Z -> Z) (ff : float -> float -> float)
  (a b : value) : outcome value :=
  match as_num a, as_num b with
  | Some (NInt x), Some (NInt y) => Ok (PInt (fz x y))
  | Some x, Some y =>
      outcome_bind (to_float x) (fun fx =>
      outcome_bind (to_float y) (fun fy => Ok (PFloat (ff fx fy))))
  | _, _ => Raise TypeError
  end.

(** [a + b] and [a - b] with a number on one side at least: this is how
    [sum] and the "-" primitive use them. *)
Definition add : value -> value -> outcome value := binop Z.add (SFadd prec emax).
Definition sub : value -> value -> outcome value := binop Z.sub (SFsub prec emax).

(** [operator.mul]. The repetition of a sequence ([str] or list times
    [int]) is left out. *)
Definition mul (a b : value) : outcome value :=
  match a, b with
  | (PStr _ | List _), (PInt _ | PBool _)
  | (PInt _ | PBool _), (PStr _ | List _) => Unsupported
  | _, _ => binop Z.mul (SFmul prec emax) a b
  end.

Definition is_zero (f : float) : bool :=
  match f with S754_zero _ => true | _ => false end.

(** [a / b], true division: always a [float]. *)
Definition truediv (a b : value) : outcome value :=
  match as_num a, as_num b with
  | Some (NInt x), Some (NInt y) =>
      if y =? 0 then Raise ZeroDivisionError
      else
        match x with
        | Z0 => Ok (PFloat (S754_zero (y <? 0)))
        | _ =>
            match SFdiv prec emax
                    (S754_finite (x <? 0) (Z.to_pos (Z.abs x)) 0)
                    (S754_finite (y <? 0) (Z.to_pos (Z.abs y)) 0) with
            | S754_infinity _ => Raise OverflowError
            | f => Ok (PFloat f)
            end
        end
  | Some x, Some y =>
      outcome_bind (to_float x) (fun fx =>
      outcome_bind (to_float y) (fun fy =>
        if is_zero fy then Raise ZeroDivisionError
        else Ok (PFloat (SFdiv prec emax fx fy))))
  | _, _ => Raise TypeError
  end.

(** [sum(args)]: starts from [0] and adds from the left. *)
Definition sum (args : list value) : outcome value :=
  fold_left (fun acc a => outcome_bind acc (fun s => add s a)) args (Ok (PInt 0)).

(** [reduce(operator.mul, args)]: no initial value, so the empty sequence
    is a [TypeError]. *)
Definition reduce_mul (args : list value) : outcome value :=
  match args with
  | [] => Raise TypeError
  | a :: rest =>
      fold_left (fun acc b => outcome_bind acc (fun p => mul p b)) rest (Ok a)
  end.

(** The exact order of an [int] and a [float]. *)
Definition compare_Z_float (z : Z) (f : float) : option comparison :=
  match f with
  | S754_nan => None
  | S754_infinity s => Some (if s then Gt else Lt)
  | S754_zero _ => Some (z ?= 0)
  | S754_finite s m e =>
      let v := if s then Zneg m else Zpos m in
      Some (if 0 <=? e then z ?= v * 2 ^ e else z * 2 ^ (- e) ?= v)
  end.

(** [None] when a NaN is involved: every comparison is then false. *)
Definition compare (a b : num) : option comparison :=
  match a, b with
  | NInt x, NInt y => Some (x ?= y)
  | NFloat x, NFloat y => SFcompare x y
  | NInt x, NFloat y => compare_Z_float x y
  | NFloat x, NInt y => option_map CompOpp (compare_Z_float y x)
  end.

Definition cmp_is (c : comparison) (o : option comparison) : bool :=
  match o, c with
  | Some Eq, Eq | Some Lt, Lt | Some Gt, Gt => true
  | _, _ => false
  end.

Definition is_nan (v : value) : bool :=
  match v with PFloat S754_nan => true | _ => false end.

End Arith.

Definition prim_eqb (p q : prim) : bool :=
  match p, q with
  | p_add, p_add | p_sub, p_sub | p_mul, p_mul | p_div, p_div
  | p_lt, p_lt | p_gt, p_gt | p_eq, p_eq | p_car, p_car | p_cdr, p_cdr
  | p_cons, p_cons | p_print, p_print => true
  | _, _ => false
  end.

(** [a == b]. [Atom] and [Udf] define no [__eq__]: two of them are equal
    when they are the same object, which the embedding does not record;
    the answer is then [None]. Inside a list an element also counts as equal
    when it is the same object, which matters for a NaN. *)
Fixpoint py_eq (a b : value) {struct a} : option bool :=
  match a, b with
  | PNone, PNone => Some true
  | PStr s, PStr t => Some (String.eqb s t)
  | Prim p, Prim q => Some (prim_eqb p q)
  | Atom _, Atom _ => None
  | Udf _ _ _, Udf _ _ _ => None
  | List l1, List l2 =>
      if negb (length l1 =? length l2)%nat then Some false
      else
        (fix items_eq (l1 l2 : list value) {struct l1} : option bool :=
           match l1, l2 with
           | x :: l1', y :: l2' =>
               match py_eq x y with
               | Some true => items_eq l1' l2'
               | Some false =>
                   if (Arith.is_nan x && Arith.is_nan y)%bool then None
                   else Some false
               | None => None
               end
           | _, _ => Some true
           end) l1 l2
  | _, _ =>
      match Arith.as_num a, Arith.as_num b with
      | Some x, Some y => Some (Arith.cmp_is Eq (Arith.compare x y))
      | _, _ => Some false
      end
  end.

(** [operator.lt] and [operator.gt]: numbers by value, strings by code
    points, anything else a [TypeError]; the order of two lists is left
    out. *)
Definition py_order (c : comparison) (a b : value) : outcome value :=
  match a, b with
  | PStr s, PStr t => Ok (PBool (Arith.cmp_is c (Some (String.compare s t))))
  | List _, List _ => Unsupported
  | _, _ =>
      match Arith.as_num a, Arith.as_num b with
      | Some x, Some y => Ok (PBool (Arith.cmp_is c (Arith.compare x y)))
      | _, _ => Raise TypeError
      end
  end.

(** [bool(v)] *)
Definition py_truth (v : value) : bool :=
  match v with
  | PNone => false
  | PBool b => b
  | PInt z => negb (z =? 0)
  | PFloat f => negb (Arith.is_zero f)
  | PStr s => negb (String.eqb s EmptyString)
  | List items => match items with [] => false | _ => true end
  | Atom _ | Udf _ _ _ | Prim _ => true
  end.

(** [v[i]] for [i >= 0]. *)
Definition py_getitem (v : value) (i : nat) : outcome value :=
  match v with
  | List items =>
      match items !! i with Some x => Ok x | None => Raise IndexError end
  | PStr s =>
      match String.get i s with
      | Some c => Ok (PStr (String c EmptyString))
      | None => Raise IndexError
      end
  | _ => Raise TypeError
  end.

(** [v[1:]] as a Python [list] of its elements. *)
Definition py_tail (v : value) : outcome (list value) :=
  match v with
  | List items => Ok (tail items)
  | PStr s =>
      Ok (map (fun c => PStr (String c EmptyString))
              (tail (list_ascii_of_string s)))
  | _ => Raise TypeError
  end.

Definition is_List (v : value) : bool :=
  match v with List _ => true | _ => false end.

Definition is_Atom (v : value) : bool :=
  match v with Atom _ => true | _ => false end.

(** [isinstance(op, Callable)] *)
Definition callable (v : value) : bool :=
  match v with Udf _ _ _ | Prim _ => true | _ => false end.

(** [op == KW], against a keyword string. *)
Definition is_kw (op : value) (kw : string) : bool :=
  match op with PStr s => String.eqb s kw | _ => false end.

(** ** The store: [Env] objects *)

(** A [dict] keeps its items in insertion order. *)
Definition dict := list (value * value).

(** class [Env(dict)]: the items of the dictionary and the attribute
    [outer]. *)
Record Env := mkEnv { items : dict; outer : option loc }.

Record state := mkState { heap : list Env; stdout : list string }.

(** Keys are looked up by [k1 is k2 or k1 == k2]. *)
Definition key_eq (k1 k2 : value) : option bool :=
  match py_eq k1 k2 with
  | Some false =>
      if (Arith.is_nan k1 && Arith.is_nan k2)%bool then None else Some false
  | r => r
  end.

(** [d[k] = v]. A [List] is unhashable. The key of an existing item stays. *)
Fixpoint dict_set (d : dict) (k v : value) : outcome dict :=
  match d with
  | [] => Ok [(k, v)]
  | (k', v') :: d' =>
      match key_eq k' k with
      | Some true => Ok ((k', v) :: d')
      | Some false =>
          outcome_bind (dict_set d' k v) (fun r => Ok ((k', v') :: r))
      | None => Unsupported
      end
  end.

Definition dict_setitem (d : dict) (k v : value) : outcome dict :=
  if is_List k then Raise TypeError else dict_set d k v.

(** [d.update(pairs)] *)
Fixpoint dict_update (d : dict) (pairs : list (value * value)) : outcome dict :=
  match pairs with
  | [] => Ok d
  | (k, v) :: pairs' =>
      outcome_bind (dict_setitem d k v) (fun d' => dict_update d' pairs')
  end.

(** [d.get(s)] for a [str] key: a string equals no object of another type. *)
Fixpoint dict_get (d : dict) (s : string) : option value :=
  match d with
  | [] => None
  | (PStr t, v) :: d' => if String.eqb t s then Some v else dict_get d' s
  | _ :: d' => dict_get d' s
  end.

(** [s in d] *)
Definition dict_mem (d : dict) (s : string) : bool :=
  match dict_get d s with Some _ => true | None => false end.

(** [bool(env)] for an [Env] or [None]: an empty dictionary is false. *)
Definition Env_truth (h : list Env) (env : option loc) : bool :=
  match env with
  | Some l =>
      match h !! l with
      | Some f => match items f with [] => false | _ => true end
      | None => false
      end
  | None => false
  end.

(** [Env.find]:
    [self if not self.outer or arg_name in self else self.outer.find(arg_name)].
    The fuel bounds the length of the chain. *)
Fixpoint Env_find (fuel : nat) (h : list Env) (self : loc) (arg_name : string)
  : outcome loc :=
  match fuel with
  | O => OutOfFuel
  | S fuel =>
      match h !! self with
      | None => Unsupported
      | Some f =>
          if (negb (Env_truth h (outer f)) || dict_mem (items f) arg_name)%bool
          then Ok self
          else
            match outer f with
            | Some o => Env_find fuel h o arg_name
            | None => Ok self
            end
      end
  end.

(** ** Computations on the store *)

Definition M (A : Type) := state -> outcome A * state.

Definition ret {A} (a : A) : M A := fun st => (Ok a, st).
Definition raise {A} (e : exn) : M A := fun st => (Raise e, st).
Definition lift {A} (o : outcome A) : M A := fun st => (o, st).

Definition bind {A B} (m : M A) (k : A -> M B) : M B :=
  fun st =>
    match m st with
    | (Ok a, st') => k a st'
    | (Raise e, st') => (Raise e, st')
    | (OutOfFuel, st') => (OutOfFuel, st')
    | (Unsupported, st') => (Unsupported, st')
    end.

Notation "'do' x <- m ; k" := (bind m (fun x => k))
  (at level 10, x name, m at level 100, k at level 200).
Notation "'run' m ; k" := (bind m (fun _ => k))
  (at level 10, m at level 100, k at level 200).

(** [assert b] *)
Definition assert (b : bool) : M unit :=
  if b then ret tt else raise AssertionError.

(** A list comprehension [[f(x) for x in l]], left to right. *)
Fixpoint for_each {A B} (f : A -> M B) (l : list A) : M (list B) :=
  match l with
  | [] => ret []
  | x :: l' => do y <- f x ; do ys <- for_each f l' ; ret (y :: ys)
  end.

(** [env[k] = v] on the [Env] object at [env]. *)
Definition Env_setitem (env : loc) (k v : value) : M unit :=
  fun st =>
    match heap st !! env with
    | None => (Unsupported, st)
    | Some f =>
        match dict_setitem (items f) k v with
        | Ok d =>
            (Ok tt, mkState (<[env := mkEnv d (outer f)]> (heap st)) (stdout st))
        | Raise e => (Raise e, st)
        | OutOfFuel => (OutOfFuel, st)
        | Unsupported => (Unsupported, st)
        end
    end.

(** [Env(arg_names, args, outer)]: a new object, holding
    [zip(arg_names, args)]. *)
Definition Env_init (arg_names args : list value) (outer : option loc) : M loc :=
  fun st =>
    match dict_update [] (zip arg_names args) with
    | Ok d => (Ok (length (heap st)), mkState (heap st ++ [mkEnv d outer]) (stdout st))
    | Raise e => (Raise e, st)
    | OutOfFuel => (OutOfFuel, st)
    | Unsupported => (Unsupported, st)
    end.

(** [self.stdout.append(text)] *)
Definition stdout_append (text : string) : M unit :=
  fun st => (Ok tt, mkState (heap st) (stdout st ++ [text])).

(** ** Evaluation *)

(** [Atom.eval(self, env=None)] *)
Definition Atom_eval (x : value) (env : option loc) : M value :=
  fun st =>
    match env, x with
    | Some e, PStr s =>
        if Env_truth (heap st) env then
          match Env_find (length (heap st)) (heap st) e s with
          | Ok _env =>
              match heap st !! _env with
              | Some f =>
                  match dict_get (items f) s with
                  | Some v => (Ok v, st)
                  | None => (Ok x, st)
                  end
              | None => (Unsupported, st)
              end
          | Raise exc => (Raise exc, st)
          | OutOfFuel => (OutOfFuel, st)
          | Unsupported => (Unsupported, st)
          end
        else (Ok x, st)
    | _, _ => (Ok x, st)
    end.

(** The primitives of [Program.__init__], applied to [args]. A wrong number
    of arguments to a fixed-arity callable is a [TypeError]. *)
Definition call_prim (p : prim) (args : list value) : M value :=
  match p, args with
  | p_add, _ => lift (Arith.sum args)
  | p_sub, [] => raise IndexError
  | p_sub, a :: rest =>
      lift (outcome_bind (Arith.sum rest) (fun s => Arith.sub a s))
  | p_mul, _ => lift (Arith.reduce_mul args)
  | p_div, [] => raise IndexError
  | p_div, a :: rest =>
      lift (outcome_bind (Arith.reduce_mul rest) (fun p => Arith.truediv a p))
  | p_lt, [a; b] => lift (py_order Lt a b)
  | p_gt, [a; b] => lift (py_order Gt a b)
  | p_eq, [a; b] =>
      match py_eq a b with
      | Some r => ret (PBool r)
      | None => lift Unsupported
      end
  | p_car, [x] => lift (py_getitem x 0)
  | p_cdr, [x] => lift (outcome_bind (py_tail x) (fun l => Ok (List l)))
  | p_cons, [x; y] =>
      match y with
      | List l => ret (List (x :: l))
      | _ => ret (List [x; y])
      end
  | p_print, [x] =>
      match py_str x with
      | Some text => run stdout_append text ; ret PNone
      | None => lift Unsupported
      end
  | _, _ => raise TypeError
  end.

Section Eval.

(** The method call [e.eval(env)] of the calls below the current one. *)
Variable ev : value -> loc -> M value.

(** [[x.eval(env) for x in v]] for an object [v]: a [List] gives its
    items, a [str] its characters (which have no [eval]), other objects
    are not iterable. *)
Definition eval_each (v : value) (env : loc) : M (list value) :=
  match v with
  | List items => for_each (fun x => ev x env) items
  | PStr EmptyString => ret []
  | PStr _ => raise AttributeError
  | _ => raise TypeError
  end.

(** [Udf.__call__(self, *args)] *)
Definition Udf_call (arg_names body : value) (env : loc) (args : list value)
  : M value :=
  if (is_Atom body || is_List body)%bool then
    do names <- eval_each arg_names env ;
    do new_env <- Env_init names args (Some env) ;
    ev body new_env
  else raise AttributeError.

(** [op] called with the items of [values] as its arguments *)
Definition call (op : value) (values : list value) : M value :=
  match op with
  | Prim p => call_prim p values
  | Udf arg_names body env => Udf_call arg_names body env values
  | _ => raise TypeError
  end.

(** The loop of the [cond] branch. *)
Fixpoint cond_loop (args : list value) (env : loc) : M value :=
  match args with
  | [] => ret PNone
  | test_expression :: args' =>
      do test <- lift (py_getitem test_expression 0) ;
      do t <- ev test env ;
      if py_truth t then
        do result <- lift (py_getitem test_expression 1) ;
        ev result env
      else cond_loop args' env
  end.

(** The body of [List.eval] from the first [if] on: the choice of a
    branch by the value [op], and the branch. *)
Definition dispatch (op : value) (args : list value) (env : loc) : M value :=
  if is_kw op KW_QUOTE then
    run assert (length args =? 1)%nat ;
    lift (py_getitem (List args) 0)
  else if is_kw op KW_ATOM then
    run assert (length args =? 1)%nat ;
    do a <- lift (py_getitem (List args) 0) ;
    if is_Atom a then ret (PBool true)
    else do v <- ev a env ; ret (PBool (negb (is_List v)))
  else if is_kw op KW_DEFINE then
    run assert (length args =? 2)%nat ;
    do rhs <- lift (py_getitem (List args) 1) ;
    do v <- ev rhs env ;
    do lhs <- lift (py_getitem (List args) 0) ;
    do k <- ev lhs env ;
    run Env_setitem env k v ;
    ret PNone
  else if is_kw op KW_LAMBDA then
    run assert (length args =? 2)%nat ;
    do a0 <- lift (py_getitem (List args) 0) ;
    do a1 <- lift (py_getitem (List args) 1) ;
    ret (Udf a0 a1 env)
  else if is_kw op KW_COND then
    cond_loop args env
  else
    do values <- for_each (fun item => ev item env) args ;
    run assert (callable op) ;
    call op values.

(** [List.eval(self, env)]: [args = self[:-1]],
    [op = self[-1].eval(env)], then the branches. *)
Definition List_eval (self : list value) (env : loc) : M value :=
  let args := removelast self in
  match last self with
  | None => raise IndexError
  | Some op_expr =>
      do op <- ev op_expr env ;
      dispatch op args env
  end.

(** [e.eval(env)]: the method of the class of [e]. *)
Definition eval_method (e : value) (env : loc) : M value :=
  match e with
  | Atom x => Atom_eval x (Some env)
  | List self => List_eval self env
  | _ => raise AttributeError
  end.

End Eval.

(** [fuel] bounds the depth of nested [eval] calls. *)
Fixpoint eval (fuel : nat) (e : value) (env : loc) : M value :=
  match fuel with
  | O => lift OutOfFuel
  | S fuel => eval_method (eval fuel) e env
  end.

(** ** The program session *)

(** The root environment of [Program.__init__] (no extra [env]). *)
Definition root_items : dict :=
  [ (PStr "+", Prim p_add); (PStr "-", Prim p_sub); (PStr "*", Prim p_mul);
    (PStr "/", Prim p_div); (PStr "<", Prim p_lt); (PStr ">", Prim p_gt);
    (PStr "eq?", Prim p_eq); (PStr "car", Prim p_car); (PStr "cdr", Prim p_cdr);
    (PStr "cons", Prim p_cons); (PStr "print", Prim p_print) ].

Definition root : loc := O.

Definition Program_init : state :=
  mkState [mkEnv root_items None] [].

(** [self.sexps] of [Program(s)]: the forms of the source text. *)
Definition Program_sexps (s : string) : outcome (list value) :=
  if String.eqb s EmptyString then Raise (SyntaxError "Empty program")
  else parse_all (length (tokenize s)) [] (tokenize s).

(** [[sexp.eval(self.env) for sexp in self.sexps]] *)
Definition Program_values (fuel : nat) (sexps : list value) : M (list value) :=
  for_each (fun sexp => eval fuel sexp root) sexps.

(** [Program.get_std_out] *)
Definition get_std_out : M string :=
  fun st =>
    match stdout st with
    | [] => (Ok EmptyString, st)
    | lines => (Ok (Str.join (String "010" EmptyString) lines), mkState (heap st) [])
    end.

(** [Program.eval] *)
Definition Program_eval (fuel : nat) (sexps : list value) : M string :=
  do values <- Program_values fuel sexps ;
  match last values with
  | None => raise IndexError
  | Some v =>
      do str_output <-
        match v with
        | PNone => ret EmptyString
        | _ => match py_str v with Some t => ret t | None => lift Unsupported end
        end ;
      do print_statement_outputs <- get_std_out ;
      if negb (String.eqb print_statement_outputs EmptyString) then
        ret (print_statement_outputs ++ String "010" EmptyString ++ str_output)%string
      else ret str_output
  end.

(** [Program(s).eval()] on a fresh session, and the values of its forms. *)
Definition Program_run (fuel : nat) (s : string) : M (list value) :=
  do sexps <- lift (Program_sexps s) ;
  Program_values fuel sexps.

Definition Program_output (fuel : nat) (s : string) : outcome string :=
  fst ((do sexps <- lift (Program_sexps s) ; Program_eval fuel sexps) Program_init).

(** * Notions used in the statements *)

(** ** Numbers *)

(** The float [4.0]. *)
Definition four : float := S754_finite false 4503599627370496 (-50).

(** ** Scope chains *)

(** [outer] is set when an [Env] is built and names an object that exists
    already, so every link of a chain points to an older object. *)
Definition heap_wf (h : list Env) : Prop :=
  forall (l : loc) (f : Env) (o : loc),
    h !! l = Some f -> outer f = Some o -> (o < l)%nat.

(** [in_chain h env l]: the object [l] is reached from [env] along [outer]. *)
Inductive in_chain (h : list Env) : loc -> loc -> Prop :=
| chain_self (l : loc) : in_chain h l l
| chain_outer (l : loc) (f : Env) (o l' : loc) :
    h !! l = Some f -> outer f = Some o -> in_chain h o l' -> in_chain h l l'.

(** No object of the chain of [env] has the key [s]. *)
Definition unbound (h : list Env) (env : loc) (s : string) : Prop :=
  forall (l : loc) (f : Env),
    in_chain h env l -> h !! l = Some f -> dict_mem (items f) s = false.

(** ** Keywords and keys *)

(** The keywords of the five special forms. *)
Definition keywords : list string :=
  [KW_QUOTE; KW_ATOM; KW_DEFINE; KW_LAMBDA; KW_COND].

(** The key [k] of a dictionary is the string [s]. *)
Definition is_key (k : value) (s : string) : bool :=
  match k with PStr t => String.eqb t s | _ => false end.

(** ** Tokens *)

(** The two characters that [tokenize] surrounds with blanks. *)
Definition is_paren (c : ascii) : bool :=
  (Ascii.eqb c "(" || Ascii.eqb c ")")%bool.

(** What [tokenize] computes, read off the text in one pass: whitespace
    ends a token, a parenthesis is a token of its own. *)
Fixpoint scan (word : string) (s : string) : list string :=
  match s with
  | EmptyString => Str.flush word
  | String c s' =>
      if Str.isspace c then (Str.flush word ++ scan EmptyString s')%list
      else if is_paren c then
        (Str.flush word ++ String c EmptyString :: scan EmptyString s')%list
      else scan (word ++ String c EmptyString) s'
  end.

(** The characters of a token that is not a parenthesis. *)
Definition okchar (c : ascii) : bool :=
  (negb (Str.isspace c) && negb (is_paren c))%bool.

(** All characters of [s] are [okchar]. *)
Fixpoint all_ok (s : string) : bool :=
  match s with
  | EmptyString => true
  | String c s' => (okchar c && all_ok s')%bool
  end.

(** A token that [str.split] returns whole and that is no parenthesis. *)
Definition clean (t : string) : Prop := t <> EmptyString /\ all_ok t = true.

(** What [tokenize] can return as a token. *)
Definition token_ok (t : string) : Prop := t = "(" \/ t = ")" \/ clean t.

(** ** Decimal digits *)

(** The value of decimal digits read from the left, after [acc]. *)
Fixpoint uint_val (acc : Z) (u : Decimal.uint) : Z :=
  match u with
  | Decimal.Nil => acc
  | Decimal.D0 u => uint_val (10 * acc + 0) u
  | Decimal.D1 u => uint_val (10 * acc + 1) u
  | Decimal.D2 u => uint_val (10 * acc + 2) u
  | Decimal.D3 u => uint_val (10 * acc + 3) u
  | Decimal.D4 u => uint_val (10 * acc + 4) u
  | Decimal.D5 u => uint_val (10 * acc + 5) u
  | Decimal.D6 u => uint_val (10 * acc + 6) u
  | Decimal.D7 u => uint_val (10 * acc + 7) u
  | Decimal.D8 u => uint_val (10 * acc + 8) u
  | Decimal.D9 u => uint_val (10 * acc + 9) u
  end.

(** Computes [digit_of] on a character that is given. *)
Ltac eval_digit :=
  match goal with
  | |- context [Num.digit_of ?c] =>
      let r := eval vm_compute in (Num.digit_of c) in
      change (Num.digit_of c) with r
  end.

(** ** The display text of a float *)



(** ** Reading back a display text *)


(** ** Queues that end inside a list *)

(** [unclosed depth ts]: with [depth + 1] lists open, the tokens [ts] run
    out before the outermost of them is closed. *)
Fixpoint unclosed (depth : nat) (ts : list string) : bool :=
  match ts with
  | [] => true
  | t :: ts' =>
      if String.eqb t "(" then unclosed (S depth) ts'
      else if String.eqb t ")" then
        match depth with O => false | S d => unclosed d ts' end
      else unclosed depth ts'
  end.

(** The queue ends with an open parenthesis. *)
Definition ends_open (ts : list string) : bool :=
  match last ts with Some t => String.eqb t "(" | None => false end.

(** What [parse] raises on a queue that ends inside a list. *)
Definition unterminated_error (ts : list string) : exn :=
  if ends_open ts then IndexError else SyntaxError "Missing )".

(** ** Sound stores *)

(** [valid n v]: every closure inside [v] refers to one of the first [n]
    [Env] objects. *)
Fixpoint valid (n : nat) (v : value) : Prop :=
  match v with
  | Atom x => valid n x
  | List items =>
      (fix all (l : list value) : Prop :=
         match l with
         | [] => True
         | x :: l' => valid n x /\ all l'
         end) items
  | Udf arg_names body env => (env < n)%nat /\ valid n arg_names /\ valid n body
  | _ => True
  end.

Definition valid_dict (n : nat) (d : dict) : Prop :=
  Forall (fun kv => valid n kv.1 /\ valid n kv.2) d.

(** The stores of a session: chains point backwards and closures refer to
    existing objects. *)
Definition state_ok (st : state) : Prop :=
  heap_wf (heap st) /\
  Forall (fun f => valid_dict (length (heap st)) (items f)) (heap st).

(** [preserves n0 R m]: from a sound store with [n0] objects or more, [m]
    leads to a sound store, does not remove objects, and its result
    satisfies [R] at the new number of objects. *)
Definition preserves {A : Type} (n0 : nat) (R : nat -> A -> Prop) (m : M A)
  : Prop :=
  forall (st st' : state) (o : outcome A),
    state_ok st -> (n0 <= length (heap st))%nat -> m st = (o, st') ->
    state_ok st' /\ (length (heap st) <= length (heap st'))%nat /\
    forall a : A, o = Ok a -> R (length (heap st')) a.

(** Induction on objects, through the items of a [List]. *)
Section value_ind.
Variable P : value -> Prop.
Hypothesis HNone : P PNone.
Hypothesis HBool : forall b, P (PBool b).
Hypothesis HInt : forall z, P (PInt z).
Hypothesis HFloat : forall f, P (PFloat f).
Hypothesis HStr : forall s, P (PStr s).
Hypothesis HAtom : forall x, P x -> P (Atom x).
Hypothesis HList : forall l, Forall P l -> P (List l).
Hypothesis HUdf : forall a b e, P a -> P b -> P (Udf a b e).
Hypothesis HPrim : forall p, P (Prim p).

Fixpoint value_ind (v : value) : P v :=
  match v with
  | PNone => HNone
  | PBool b => HBool b
  | PInt z => HInt z
  | PFloat f => HFloat f
  | PStr s => HStr s
  | Atom x => HAtom x (value_ind x)
  | List l =>
      HList l ((fix go (l : list value) : Forall P l :=
                  match l with
                  | [] => @List.Forall_nil value P
                  | x :: l' => @List.Forall_cons value P x l' (value_ind x) (go l')
                  end) l)
  | Udf a b e => HUdf a b e (value_ind a) (value_ind b)
  | Prim p => HPrim p
  end.
End value_ind.

(** ** The text of a token queue *)

(** [s] without its whitespace characters. *)
Fixpoint drop_spaces (s : string) : string :=
  match s with
  | EmptyString => EmptyString
  | String c s' =>
      if Str.isspace c then drop_spaces s' else String c (drop_spaces s')
  end.

(** The tokens one after the other, with nothing between them. *)
Fixpoint concat_str (l : list string) : string :=
  match l with
  | [] => EmptyString
  | t :: l' => (t ++ concat_str l')%string
  end.

(** [s] holds whitespace only. *)
Fixpoint all_space (s : string) : bool :=
  match s with
  | EmptyString => true
  | String c s' => (Str.isspace c && all_space s')%bool
  end.

(** ** Trees and their tokens *)

(** The tokens that spell a tree: the decimal text of an integer, the text
    of a symbol, and a list between parentheses. *)
Fixpoint tokens_of (e : value) : list string :=
  match e with
  | Atom (PInt z) => [Str.of_Z z]
  | Atom (PStr t) => [t]
  | List items =>
      ("(" :: (fix all (l : list value) : list string :=
                 match l with
                 | [] => []
                 | x :: l' => tokens_of x ++ all l'
                 end) items ++ [")"])%list
  | _ => []
  end.

(** Trees of integers and symbols; a symbol is a token that [Atom.__init__]
    keeps as it is. *)
Fixpoint tree_ok (e : value) : Prop :=
  match e with
  | Atom (PInt z) => True
  | Atom (PStr t) => clean t /\ Atom_init t = Atom (PStr t)
  | List items =>
      (fix all (l : list value) : Prop :=
         match l with
         | [] => True
         | x :: l' => tree_ok x /\ all l'
         end) items
  | _ => False
  end.

(** ** The nearest binding *)

(** [nearest h s v l]: going outwards from the object [l] through objects
    that are not empty, the first one that has the key [s] stores [v]
    under it. *)
Inductive nearest (h : list Env) (s : string) (v : value) : loc -> Prop :=
| nearest_here (l : loc) (f : Env) :
    h !! l = Some f -> dict_get (items f) s = Some v -> nearest h s v l
| nearest_outer (l : loc) (f : Env) (o : loc) :
    h !! l = Some f -> items f <> [] -> dict_get (items f) s = None ->
    outer f = Some o -> nearest h s v o -> nearest h s v l.

(** ** What evaluation leaves in place *)

(** [extends st st']: every [Env] object of [st] is still there in [st'],
    under the same name and with the same [outer], and the print buffer of
    [st'] starts with that of [st]. *)
Definition extends (st st' : state) : Prop :=
  (forall (l : loc) (f : Env),
      heap st !! l = Some f ->
      exists f' : Env, heap st' !! l = Some f' /\ outer f' = outer f) /\
  (exists out : list string, stdout st' = (stdout st ++ out)%list).

(** Whatever its outcome, [m] leaves a store that extends the one it
    started from. *)
Definition steady {A : Type} (m : M A) : Prop :=
  forall (st st' : state) (o : outcome A), m st = (o, st') -> extends st st'.

(** * Properties *)

(** ** Operand-last arithmetic *)

(** C1. In the root environment the operator is read from the last position
    of a list: the source texts "(3 4 +)", "(10 2 3 -)" and "(2 3 4 * )"
    evaluate to the integers 7, 5 and 24, and "(24 2 3 /)" to 4, which true
    division delivers as the float 4.0, equal to the integer 4 under the
    language's [==]. Two nested [eval] calls are enough, and the root
    environment is left as it was. *)
Theorem operand_last_arithmetic (fuel : nat) :
  Program_run (S (S fuel)) "(3 4 +)" Program_init = (Ok [PInt 7], Program_init) /\
  Program_run (S (S fuel)) "(10 2 3 -)" Program_init = (Ok [PInt 5], Program_init) /\
  Program_run (S (S fuel)) "(2 3 4 *)" Program_init = (Ok [PInt 24], Program_init) /\
  Program_run (S (S fuel)) "(24 2 3 /)" Program_init = (Ok [PFloat four], Program_init) /\
  py_eq (PFloat four) (PInt 4) = Some true /\
  Program_sexps "(3 4 +)" = Ok [List [Atom (PInt 3); Atom (PInt 4); Atom (PStr "+")]].
Proof.
  repeat split; vm_compute; reflexivity.
Qed.

(** On integers the three exact operators compute what the spec's table
    says, whatever the operands. *)
Lemma operand_last_integers (fuel : nat) (a b c : Z) :
  let form op := List [Atom (PInt a); Atom (PInt b); Atom (PInt c); Atom (PStr op)] in
  eval (S (S fuel)) (form "+") root Program_init = (Ok (PInt (a + b + c)), Program_init) /\
  eval (S (S fuel)) (form "-") root Program_init = (Ok (PInt (a - (b + c))), Program_init) /\
  eval (S (S fuel)) (form "*") root Program_init = (Ok (PInt (a * b * c)), Program_init).
Proof.
  repeat split; reflexivity.
Qed.

(** ** The empty list *)

(** C8. The source text [()] parses to the empty [List], and evaluating the
    empty [List] raises [IndexError] in every environment and every store:
    [self[-1]] is read before anything else. *)
Theorem empty_list_eval_fails (fuel : nat) (env : loc) (st : state) :
  parse (tokenize "()") = Ok (List [], []) /\
  eval (S fuel) (List []) env st = (Raise IndexError, st).
Proof.
  split; reflexivity.
Qed.

(** ** The division primitive *)

(** C7, at the failing input: "/" applied to one argument raises
    [TypeError], because [reduce(operator.mul, ())] has no initial value.
    The sibling "-" accepts a single argument and returns it. *)
Theorem div_single_argument_fails (fuel : nat) (x : value) (st : state) :
  call_prim p_div [x] st = (Raise TypeError, st) /\
  Program_run (S (S fuel)) "(8 /)" Program_init = (Raise TypeError, Program_init) /\
  Program_run (S (S fuel)) "(8 -)" Program_init = (Ok [PInt 8], Program_init).
Proof.
  repeat split; reflexivity.
Qed.

(** With two arguments or more "/" is the first argument divided by the
    product of the others. *)
Lemma div_by_product (a b : value) (rest : list value) (st : state) :
  call_prim p_div (a :: b :: rest) st =
  (outcome_bind (Arith.reduce_mul (b :: rest)) (fun p => Arith.truediv a p), st).
Proof. reflexivity. Qed.

(** ** Unterminated forms *)

(** C3, at the failing input: the queue holding the single token "(" makes
    [parse] raise [IndexError] (from [tokens[0]] on the empty deque), not a
    [SyntaxError]; the check for the missing parenthesis is only reached
    after a child has been parsed. *)
Theorem parse_lone_open_paren :
  parse ["("] = Raise IndexError /\
  parse (tokenize "(") = Raise IndexError /\
  parse (tokenize "(a (") = Raise IndexError /\
  parse (tokenize "(a") = Raise (SyntaxError "Missing )").
Proof.
  repeat split; reflexivity.
Qed.

Lemma ends_open_app (l1 l2 : list string) :
  l2 <> [] -> ends_open (l1 ++ l2) = ends_open l2.
Proof.
  intros H. unfold ends_open. rewrite last_app.
  apply last_is_Some in H as [t ->]. done.
Qed.

(** The two loops of the parser, on enough fuel. [parse] on a queue that
    does not start with a close parenthesis either returns a complete form
    and the tokens after it, or the queue ends inside a list and the error
    is as [unterminated_error] says; likewise for the [while] loop, which
    returns when its list is closed. *)
Lemma parse_shape (fuel : nat) :
  (forall ts : list string,
      ts <> [] -> head ts <> Some ")" -> (2 * length ts <= fuel)%nat ->
      (exists (e : value) (consumed rest : list string),
          parse_fuel fuel ts = Ok (e, rest) /\ ts = (consumed ++ rest)%list /\
          consumed <> [] /\ ends_open consumed = false /\
          forall d : nat, unclosed d ts = unclosed d rest) \/
      (parse_fuel fuel ts = Raise (unterminated_error ts) /\
       forall d : nat, unclosed d ts = true)) /\
  (forall (sexp : list value) (ts : list string),
      (2 * length ts + 1 <= fuel)%nat ->
      (exists (l : list value) (consumed rest : list string),
          parse_while fuel sexp ts = Ok (List l, rest) /\
          ts = (consumed ++ rest)%list /\ last consumed = Some ")" /\
          unclosed 0 ts = false /\
          forall d : nat, unclosed (S d) ts = unclosed d rest) \/
      (parse_while fuel sexp ts =
       Raise (match ts with [] => IndexError | _ => unterminated_error ts end) /\
       forall d : nat, unclosed d ts = true)).
Proof.
  induction fuel as [|fuel [IHp IHw]].
  { split; [intros [|t ts] ? ? Hlen; [done|simpl in Hlen; lia]|].
    intros sexp ts Hlen. lia. }
  split.
  - (* parse *)
    intros [|t rest0] Hne Hhd Hlen; [done|]. simpl in Hlen. cbn [parse_fuel].
    destruct (String.eqb_spec t "(") as [->|Ho].
    + destruct (IHw [] rest0 ltac:(lia)) as
        [(l & consumed & rest & -> & -> & Hlast & _ & Hd)|[-> Hd]].
      * left. exists (List l), ("(" :: consumed), rest. split_and!; try done.
        unfold ends_open. destruct consumed as [|c consumed]; [done|].
        rewrite last_cons_cons, Hlast. done.
      * right. split; [|intros d; apply Hd].
        destruct rest0 as [|r rest0]; [done|].
        unfold unterminated_error.
        change ("(" :: r :: rest0) with (["("] ++ r :: rest0)%list.
        by rewrite ends_open_app.
    + destruct (String.eqb_spec t ")") as [->|Hc]; [done|].
      left. exists (Atom_init t), [t], rest0. split_and!; try done.
      * unfold ends_open. simpl. by apply String.eqb_neq.
      * intros d. simpl. apply String.eqb_neq in Ho, Hc. by rewrite Ho, Hc.
  - (* the while loop *)
    intros sexp [|t0 rest0] Hlen; cbn [parse_while].
    { by right. }
    simpl in Hlen. destruct (String.eqb_spec t0 ")") as [->|Hc]; cbn [negb].
    { left. exists sexp, [")"], rest0. by split_and!. }
    destruct (IHp (t0 :: rest0) ltac:(done)
                ltac:(simpl; congruence) ltac:(simpl; lia)) as
      [(e & consumed & rest1 & -> & Hts & Hcons & Hopen & Hd)|[-> Hd]].
    + destruct rest1 as [|r rest1].
      * right. rewrite app_nil_r in Hts. subst consumed.
        unfold unterminated_error. rewrite Hopen. split; [done|].
        intros d. by rewrite Hd.
      * assert (length (t0 :: rest0) = length consumed + length (r :: rest1))%nat
          as Hl by (by rewrite Hts, length_app).
        assert (length consumed <> 0)%nat by (by destruct consumed).
        simpl in Hl.
        destruct (IHw (sexp ++ [e])%list (r :: rest1) ltac:(simpl; lia)) as
          [(l & consumed2 & rest2 & -> & Hts2 & Hlast & Hz & Hd2)|[-> Hd2]].
        -- left. exists l, (consumed ++ consumed2)%list, rest2.
           split_and!; try done.
           ++ by rewrite Hts, Hts2, app_assoc.
           ++ by rewrite last_app, Hlast.
           ++ by rewrite Hd.
           ++ intros d. by rewrite Hd.
        -- right. split.
           ++ rewrite Hts. unfold unterminated_error.
              by rewrite ends_open_app.
           ++ intros d. by rewrite Hd.
    + right. by split.
Qed.

(** X3. A queue that opens a list and ends inside it: [parse] raises
    [SyntaxError] unless the last token is an open parenthesis, in which
    case it raises [IndexError]. *)
Lemma parse_unterminated (ts : list string) :
  unclosed 0 ts = true ->
  parse ("(" :: ts) = Raise (unterminated_error ("(" :: ts)).
Proof.
  intros Hun. unfold parse. rewrite Nat.add_1_r.
  destruct (proj2 (parse_shape (2 * length ("(" :: ts))) [] ts
              ltac:(simpl; lia)) as
    [(l & c & r & _ & _ & _ & Hz & _)|[H _]]; [congruence|].
  cbn [parse_fuel]. simpl String.eqb.
  rewrite H. destruct ts as [|t ts]; [done|].
  unfold unterminated_error.
  change ("(" :: t :: ts) with (["("] ++ t :: ts)%list.
  by rewrite ends_open_app.
Qed.

(** [parse] never runs out of fuel. *)
Lemma parse_total (ts : list string) :
  (exists (e : value) (rest : list string), parse ts = Ok (e, rest)) \/
  (exists err : exn, parse ts = Raise err).
Proof.
  destruct ts as [|t ts]; [right; by exists IndexError|].
  destruct (String.eqb_spec t ")") as [->|Hc].
  { right. exists (SyntaxError "Unexpected )"). unfold parse.
    by rewrite Nat.add_1_r. }
  destruct (proj1 (parse_shape (2 * length (t :: ts) + 1)) (t :: ts)
              ltac:(done) ltac:(simpl; congruence) ltac:(lia)) as
    [(e & consumed & rest & H & _)|[H _]]; eauto.
Qed.

(** ** Scope chains *)

Lemma Env_truth_Some (h : list Env) (o : option loc) :
  Env_truth h o = true ->
  exists (l : loc) (f : Env), o = Some l /\ h !! l = Some f /\ items f <> [].
Proof.
  unfold Env_truth. destruct o as [l|]; [|discriminate].
  destruct (h !! l) as [f|] eqn:E; [|discriminate].
  destruct (items f) eqn:E'; [discriminate|].
  intros _. exists l, f. rewrite E'. auto.
Qed.

(** [Env.find] ends on an object of the chain. *)
Lemma Env_find_in_chain (h : list Env) (s : string) :
  heap_wf h ->
  forall (fuel : nat) (l : loc) (f : Env),
    (l < fuel)%nat -> h !! l = Some f ->
    exists (l' : loc) (f' : Env),
      Env_find fuel h l s = Ok l' /\ in_chain h l l' /\ h !! l' = Some f'.
Proof.
  intros Hwf. induction fuel as [|fuel IH]; intros l f Hl Hf; [lia|].
  simpl. rewrite Hf.
  destruct (negb (Env_truth h (outer f)) || dict_mem (items f) s)%bool eqn:Hc.
  - exists l, f. eauto using chain_self.
  - apply orb_false_iff in Hc as [Ht _]. apply negb_false_iff in Ht.
    destruct (Env_truth_Some _ _ Ht) as (o & fo & Ho & Hfo & _).
    rewrite Ho. pose proof (Hwf _ _ _ Hf Ho).
    destruct (IH o fo ltac:(lia) Hfo) as (l' & f' & Hfind & Hch & Hf').
    exists l', f'. eauto using chain_outer.
Qed.

(** C2. An [Atom] that holds a symbol [s] evaluates to the text [s] itself,
    without an error and without touching the store, whenever no [Env] of
    the scope chain has [s] as a key; the same holds when no environment is
    given. Chains are those a program can build ([heap_wf]). *)
Theorem Atom_eval_unbound (fuel : nat) (st : state) (env : loc) (s : string) :
  heap_wf (heap st) ->
  unbound (heap st) env s ->
  Atom_eval (PStr s) (Some env) st = (Ok (PStr s), st) /\
  Atom_eval (PStr s) None st = (Ok (PStr s), st) /\
  eval (S fuel) (Atom (PStr s)) env st = (Ok (PStr s), st).
Proof.
  intros Hwf Hun.
  assert (H : Atom_eval (PStr s) (Some env) st = (Ok (PStr s), st)).
  { unfold Atom_eval.
    destruct (Env_truth (heap st) (Some env)) eqn:Ht; [|reflexivity].
    destruct (Env_truth_Some _ _ Ht) as (l & f & [= <-] & Hf & _).
    destruct (Env_find_in_chain _ s Hwf (length (heap st)) env f) as
      (l' & f' & -> & Hch & Hf'); [by eapply lookup_lt_Some|done|].
    rewrite Hf'. specialize (Hun _ _ Hch Hf'). unfold dict_mem in Hun.
    by destruct (dict_get (items f') s). }
  auto.
Qed.

(** The root environment binds no symbol but the eleven primitives. *)
Lemma Atom_eval_unbound_witness :
  heap_wf (heap Program_init) /\ unbound (heap Program_init) root "x" /\
  Atom_eval (PStr "x") (Some root) Program_init = (Ok (PStr "x"), Program_init).
Proof.
  assert (Hwf : heap_wf (heap Program_init)).
  { intros [|l] f o Hf Ho; simpl in Hf; [|by destruct l].
    injection Hf as <-. discriminate. }
  assert (Hun : unbound (heap Program_init) root "x").
  { intros l f Hch Hf. inversion Hch; subst.
    - injection Hf as <-. reflexivity.
    - simpl in H. injection H as <-. discriminate. }
  split; [exact Hwf|]. split; [exact Hun|].
  exact (proj1 (Atom_eval_unbound 0 Program_init root "x" Hwf Hun)).
Defined.

(** ** Dispatch on the value of the operator *)

(** A list with at least one element: the last one is evaluated first and
    its value chooses the branch. *)
Lemma eval_List_snoc (fuel : nat) (args : list value) (op_expr : value)
  (env : loc) (st : state) :
  eval (S fuel) (List (args ++ [op_expr])) env st =
  (do op <- eval fuel op_expr env ; dispatch (eval fuel) op args env) st.
Proof.
  simpl. unfold List_eval. by rewrite last_snoc, removelast_last.
Qed.

Lemma is_kw_true (v : value) (kw : string) : is_kw v kw = true -> v = PStr kw.
Proof.
  destruct v; simpl; try discriminate. intros H. apply String.eqb_eq in H.
  by subst.
Qed.

Lemma is_kw_false (v : value) (kw : string) : v <> PStr kw -> is_kw v kw = false.
Proof.
  intros H. destruct (is_kw v kw) eqn:E; [|done]. by apply is_kw_true in E.
Qed.

(** An empty [Env] object is false as a condition, so [Atom.eval] does not
    look anything up from it: a symbol evaluates to its text whatever the
    outer objects bind. *)
Lemma Atom_eval_empty_env (fuel : nat) (st : state) (env : loc) (f : Env)
  (s : string) :
  heap st !! env = Some f -> items f = [] ->
  eval (S fuel) (Atom (PStr s)) env st = (Ok (PStr s), st).
Proof.
  intros Hf Hi. simpl. unfold Atom_eval, Env_truth. by rewrite Hf, Hi.
Qed.


(** ** Dictionaries with string keys *)


Lemma dict_get_cons (k w : value) (d : dict) (s : string) :
  dict_get ((k, w) :: d) s = if is_key k s then Some w else dict_get d s.
Proof. by destruct k. Qed.






(** ** Closure calls *)




(** ** The define form *)




(** Replacing the dictionary of one object keeps the chains. *)
Lemma heap_wf_insert (h : list Env) (env : loc) (f : Env) (d : dict) :
  heap_wf h -> h !! env = Some f ->
  heap_wf (<[env := mkEnv d (outer f)]> h).
Proof.
  intros Hwf Hf l g o Hg Ho. destruct (decide (l = env)) as [->|Hne].
  - rewrite list_lookup_insert_eq in Hg by (by eapply lookup_lt_Some).
    injection Hg as <-. by eapply Hwf.
  - rewrite list_lookup_insert_ne in Hg by done. by eapply Hwf.
Qed.



(** An unbound symbol, at the level of [eval]. *)
Lemma eval_Atom_self (fuel : nat) (st : state) (env : loc) (s : string) :
  heap_wf (heap st) -> unbound (heap st) env s ->
  eval (S fuel) (Atom (PStr s)) env st = (Ok (PStr s), st).
Proof.
  intros Hwf Hun.
  change (eval (S fuel) (Atom (PStr s)) env st)
    with (Atom_eval (PStr s) (Some env) st).
  unfold Atom_eval.
  destruct (Env_truth (heap st) (Some env)) eqn:Ht; [|done].
  apply Env_truth_Some in Ht as (l & f & [= <-] & Hf & _).
  pose proof (lookup_lt_Some _ _ _ Hf) as Hlt.
  destruct (Env_find_in_chain _ s Hwf _ _ _ Hlt Hf) as (l' & f' & -> & Hch & Hf').
  rewrite Hf'. pose proof (Hun _ _ Hch Hf') as Hm. unfold dict_mem in Hm.
  by destruct (dict_get (items f') s).
Qed.






(** ** The lexer in one pass *)

Lemma str_app_assoc (a b c : string) :
  ((a ++ b) ++ c = a ++ (b ++ c))%string.
Proof. induction a as [|x a IH]; simpl; [done|]. by rewrite IH. Qed.

Lemma str_app_nil_r (a : string) : (a ++ EmptyString)%string = a.
Proof. induction a as [|x a IH]; simpl; [done|]. by rewrite IH. Qed.

Lemma replace_app (old : ascii) (new a b : string) :
  Str.replace old new (a ++ b) = (Str.replace old new a ++ Str.replace old new b)%string.
Proof.
  induction a as [|c a IH]; simpl; [done|].
  destruct (Ascii.eqb c old); rewrite IH; [|done].
  by rewrite str_app_assoc.
Qed.

Lemma tokenize_scan_from (word s : string) :
  Str.split_from word (Str.replace ")" " ) " (Str.replace "(" " ( " s)) =
  scan word s.
Proof.
  revert word. induction s as [|c s IH]; intros word; [done|].
  cbn [Str.replace scan].
  destruct (Ascii.eqb_spec c "(") as [->|Hopen].
  - rewrite replace_app. cbn. by rewrite IH.
  - cbn [Str.replace]. destruct (Ascii.eqb_spec c ")") as [->|Hclose].
    + cbn. by rewrite IH.
    + cbn [Str.split_from]. rewrite !IH. unfold is_paren.
      apply Ascii.eqb_neq in Hopen, Hclose. by rewrite Hopen, Hclose.
Qed.

Lemma tokenize_scan (s : string) : tokenize s = scan EmptyString s.
Proof. apply tokenize_scan_from. Qed.

Lemma append_snoc (w : string) (c : ascii) (s : string) :
  ((w ++ String c EmptyString) ++ s = w ++ String c s)%string.
Proof. by rewrite str_app_assoc. Qed.

Lemma all_ok_app (a b : string) :
  all_ok (a ++ b) = (all_ok a && all_ok b)%bool.
Proof.
  induction a as [|c a IH]; simpl; [done|]. by rewrite IH, andb_assoc.
Qed.

Lemma flush_ok (w : string) : all_ok w = true -> Forall token_ok (Str.flush w).
Proof.
  intros H. destruct w; simpl; [done|].
  apply Forall_cons. split; [|done]. right. right. by split.
Qed.

(** Every token is a parenthesis or is free of parentheses and whitespace. *)
Lemma scan_tokens_ok (s word : string) :
  all_ok word = true -> Forall token_ok (scan word s).
Proof.
  revert word. induction s as [|c s IH]; intros word Hw; simpl.
  - by apply flush_ok.
  - destruct (Str.isspace c) eqn:Hsp.
    + apply Forall_app. split; [by apply flush_ok|by apply IH].
    + destruct (is_paren c) eqn:Hp.
      * apply Forall_app. split; [by apply flush_ok|].
        apply Forall_cons. split; [|by apply IH].
        unfold is_paren in Hp. apply orb_true_iff in Hp as [H|H];
          apply Ascii.eqb_eq in H as ->; [by left|right; by left].
      * apply IH. rewrite all_ok_app, Hw. simpl. unfold okchar.
        by rewrite Hsp, Hp.
Qed.

(** A clean token is its own tokenization. *)
Lemma scan_clean (t word : string) :
  all_ok t = true -> scan word t = Str.flush (word ++ t).
Proof.
  revert word. induction t as [|c t IH]; intros word H; simpl.
  - by rewrite str_app_nil_r.
  - apply andb_true_iff in H as [Hc Ht]. unfold okchar in Hc.
    apply andb_true_iff in Hc as [Hsp Hp].
    apply negb_true_iff in Hsp, Hp. rewrite Hsp, Hp, IH by done.
    by rewrite append_snoc.
Qed.


(** ** Decimal text of integers *)

Lemma more_digits_uint (u : Decimal.uint) :
  forall (acc : Z) (n : nat),
    exists k : nat,
      Num.more_digits acc n (NilEmpty.string_of_uint u) = (uint_val acc u, k, EmptyString).
Proof.
  induction u as [|u IH|u IH|u IH|u IH|u IH|u IH|u IH|u IH|u IH|u IH];
    intros acc n; cbn [NilEmpty.string_of_uint Num.more_digits uint_val];
    [by exists n|eval_digit; cbn iota; apply IH..].
Qed.

Lemma uint_val_pos (u : Decimal.uint) :
  forall p : positive, uint_val (Zpos p) u = Zpos (Pos.of_uint_acc u p).
Proof.
  induction u as [|u IH|u IH|u IH|u IH|u IH|u IH|u IH|u IH|u IH|u IH];
    intros p; cbn [uint_val Pos.of_uint_acc];
    [done|rewrite <- IH; f_equal; lia..].
Qed.

Lemma uint_val_0 (u : Decimal.uint) : uint_val 0 u = Z.of_uint u.
Proof.
  unfold Z.of_uint.
  induction u as [|u IH|u IH|u IH|u IH|u IH|u IH|u IH|u IH|u IH|u IH];
    cbn [uint_val Pos.of_uint]; [done|exact IH|apply uint_val_pos..].
Qed.

Lemma all_ok_uint (u : Decimal.uint) : all_ok (NilEmpty.string_of_uint u) = true.
Proof.
  induction u as [|u IH|u IH|u IH|u IH|u IH|u IH|u IH|u IH|u IH|u IH];
    cbn [NilEmpty.string_of_uint all_ok]; [done|by rewrite IH..].
Qed.

(** The display text of an integer is one clean token. *)
Lemma of_Z_clean (z : Z) : clean (Str.of_Z z).
Proof.
  unfold Str.of_Z, clean. destruct z as [|p|p]; simpl.
  - done.
  - pose proof (DecimalPos.Unsigned.to_uint_nonnil p) as Hnn.
    split; [|apply all_ok_uint]. by destruct (Pos.to_uint p).
  - split; [done|]. apply all_ok_uint.
Qed.

Lemma lstrip_ok (s : string) : all_ok s = true -> Str.lstrip s = s.
Proof.
  destruct s as [|c s]; simpl; [done|]. intros H.
  apply andb_true_iff in H as [Hc _]. unfold okchar in Hc.
  apply andb_true_iff in Hc as [Hsp _]. apply negb_true_iff in Hsp.
  by rewrite Hsp.
Qed.

Lemma rstrip_ok (s : string) : all_ok s = true -> Str.rstrip s = s.
Proof.
  induction s as [|c s IH]; simpl; [done|]. intros H.
  apply andb_true_iff in H as [Hc Hs]. rewrite IH by done.
  unfold okchar in Hc. apply andb_true_iff in Hc as [Hsp _].
  apply negb_true_iff in Hsp. rewrite Hsp. by destruct s.
Qed.

Lemma strip_ok (s : string) : all_ok s = true -> Str.strip s = s.
Proof. intros H. unfold Str.strip. by rewrite lstrip_ok, rstrip_ok. Qed.

(** Digits alone are read back as their value. *)
Lemma digitpart_uint (u : Decimal.uint) :
  u <> Decimal.Nil ->
  exists k : nat,
    Num.digitpart 0 (NilEmpty.string_of_uint u)
    = Some (uint_val 0 u, k, EmptyString) /\
    Num.sign (NilEmpty.string_of_uint u) = (false, NilEmpty.string_of_uint u).
Proof.
  destruct u as [|u|u|u|u|u|u|u|u|u|u]; [done|..]; intros _;
    cbn [NilEmpty.string_of_uint Num.digitpart uint_val]; eval_digit; cbn iota.
  all: match goal with
       | |- context [Num.more_digits ?a 1 _] =>
           destruct (more_digits_uint u a 1) as [k' Hk'];
           exists k'; by rewrite Hk'
       end.
Qed.

(** [int(str(z)) == z] *)
Lemma int_of_str_of_Z (z : Z) : Num.int_of_str (Str.of_Z z) = Some z.
Proof.
  unfold Num.int_of_str. rewrite strip_ok by apply of_Z_clean.
  unfold Str.of_Z. destruct z as [|p|p].
  - reflexivity.
  - cbn [Z.to_int NilEmpty.string_of_int].
    destruct (digitpart_uint _ (DecimalPos.Unsigned.to_uint_nonnil p))
      as (k & Hd & Hs).
    rewrite Hs, Hd, uint_val_0. unfold Z.of_uint.
    by rewrite DecimalPos.Unsigned.of_to.
  - cbn [Z.to_int NilEmpty.string_of_int Num.sign].
    destruct (digitpart_uint _ (DecimalPos.Unsigned.to_uint_nonnil p))
      as (k & Hd & _).
    rewrite Hd, uint_val_0. unfold Z.of_uint.
    by rewrite DecimalPos.Unsigned.of_to.
Qed.

(** ** Display text read back *)




Lemma clean_not_paren (t : string) : clean t -> t <> "(" /\ t <> ")".
Proof. intros [_ H]. split; intros ->; discriminate. Qed.


(** ** Display text of floats *)
















(** The display texts of some floats, as CPython prints them: a point is
    always shown, an exponent has a sign and two digits or more, the digits
    are the fewest that identify the float. *)
Lemma repr_examples :
  List.map (fun t => match Num.float_of_str t with
                     | Some f => Num.repr f
                     | None => None
                     end)
    ["0.1"; ".5e1"; "1e16"; "123456789012345.6e1"; "1e-4"; "1e-5"; "5e-324";
     "1.7976931348623157e308"; "0.30000000000000004"; "1e23"; "-2.50";
     "1e400"; "-0.0"; "nan"]
  = [Some "0.1"; Some "5.0"; Some "1e+16"; Some "1234567890123456.0";
     Some "0.0001"; Some "1e-05"; Some "5e-324";
     Some "1.7976931348623157e+308"; Some "0.30000000000000004";
     Some "1e+23"; Some "-2.5"; Some "inf"; Some "-0.0"; Some "nan"].
Proof. vm_compute. reflexivity. Qed.




(** ** Stores that a session can reach *)

Lemma valid_List (n : nat) (l : list value) :
  valid n (List l) <-> Forall (valid n) l.
Proof.
  induction l as [|x l IH]; simpl.
  - split; [constructor|done].
  - rewrite Forall_cons. simpl in IH. by rewrite IH.
Qed.

Lemma valid_mono (v : value) :
  forall n m : nat, (n <= m)%nat -> valid n v -> valid m v.
Proof.
  induction v as [| | | | |x IH|l IH|a b e IHa IHb|] using value_ind;
    intros n m Hnm; try done.
  - apply IH, Hnm.
  - rewrite !valid_List. intros H. induction H as [|x l Hx Hl IHl]; [done|].
    inversion IH; subst. constructor; [by eapply H1|by apply IHl].
  - simpl. intros (He & Ha & Hb). split_and!; [lia|by eapply IHa|by eapply IHb].
Qed.

Lemma valid_dict_mono (d : dict) (n m : nat) :
  (n <= m)%nat -> valid_dict n d -> valid_dict m d.
Proof.
  intros Hnm H. eapply Forall_impl; [exact H|]. intros [k v] [Hk Hv].
  split; by eapply valid_mono.
Qed.

(** *** Computations keep the store sound *)

Lemma preserves_lift {A : Type} (n0 : nat) (R : nat -> A -> Prop)
  (o : outcome A) :
  (forall (a : A) (n : nat), o = Ok a -> (n0 <= n)%nat -> R n a) ->
  preserves n0 R (lift o).
Proof.
  intros H st st' o' Hok Hn [= <- <-]. split_and!; [done|done|].
  intros a ->. by apply H.
Qed.

Lemma preserves_ret {A : Type} (n0 : nat) (R : nat -> A -> Prop) (a : A) :
  (forall n : nat, (n0 <= n)%nat -> R n a) -> preserves n0 R (ret a).
Proof.
  intros H. apply (preserves_lift n0 R (Ok a)). intros b n [= <-]. apply H.
Qed.

Lemma preserves_raise {A : Type} (n0 : nat) (R : nat -> A -> Prop) (e : exn) :
  preserves n0 R (raise e).
Proof. by apply (preserves_lift n0 R (Raise e)). Qed.

Lemma preserves_bind {A B : Type} (n0 : nat) (R : nat -> A -> Prop)
  (R' : nat -> B -> Prop) (m : M A) (k : A -> M B) :
  preserves n0 R m ->
  (forall (a : A) (n : nat), (n0 <= n)%nat -> R n a -> preserves n R' (k a)) ->
  preserves n0 R' (bind m k).
Proof.
  intros Hm Hk st st' o Hok Hn. unfold bind.
  destruct (m st) as [[a| | |] st1] eqn:E;
    destruct (Hm _ _ _ Hok Hn E) as (Hok1 & Hlen & HR).
  - intros Hka.
    destruct (Hk a (length (heap st1)) ltac:(lia) (HR a eq_refl)
                _ _ _ Hok1 ltac:(lia) Hka) as (Hok' & Hlen' & HR').
    split_and!; [done|lia|done].
  - intros [= <- <-]. split_and!; [done|lia|done].
  - intros [= <- <-]. split_and!; [done|lia|done].
  - intros [= <- <-]. split_and!; [done|lia|done].
Qed.

Lemma preserves_weaken {A : Type} (n0 n1 : nat) (R R' : nat -> A -> Prop)
  (m : M A) :
  (n0 <= n1)%nat -> (forall n a, R n a -> R' n a) ->
  preserves n0 R m -> preserves n1 R' m.
Proof.
  intros Hn HR Hm st st' o Hok Hlen E.
  destruct (Hm _ _ _ Hok ltac:(lia) E) as (? & ? & ?). split_and!; auto.
Qed.

Lemma preserves_assert (n0 : nat) (b : bool) :
  preserves n0 (fun _ _ => True) (assert b).
Proof. destruct b; [by apply preserves_ret|apply preserves_raise]. Qed.

Lemma preserves_for_each {A B : Type} (R : nat -> B -> Prop) (f : A -> M B)
  (l : list A) :
  (forall (n m : nat) (b : B), (n <= m)%nat -> R n b -> R m b) ->
  forall n0 : nat,
    (forall (x : A) (n : nat), x ∈ l -> (n0 <= n)%nat -> preserves n R (f x)) ->
    preserves n0 (fun n ys => Forall (R n) ys) (for_each f l).
Proof.
  intros Hmono. induction l as [|x l IH]; intros n0 Hf; simpl.
  - by apply preserves_ret.
  - eapply preserves_bind; [apply Hf; [by left|done]|].
    intros y n Hn Hy. eapply preserves_bind.
    + apply IH. intros z k Hz Hk. apply Hf; [by right|lia].
    + intros ys k Hk Hys. apply preserves_ret. intros j Hj.
      constructor; [by eapply Hmono; [|exact Hy]; lia|].
      eapply Forall_impl; [exact Hys|]. intros b. by apply Hmono.
Qed.

(** *** The store *)

Lemma dict_get_valid (n : nat) (d : dict) (s : string) (v : value) :
  valid_dict n d -> dict_get d s = Some v -> valid n v.
Proof.
  induction 1 as [|[k w] d [Hk Hw] Hd IH]; [done|].
  rewrite dict_get_cons. destruct (is_key k s); [|exact IH].
  by intros [= <-].
Qed.

Lemma dict_set_valid (n : nat) (k v : value) (d : dict) :
  valid n k -> valid n v -> valid_dict n d ->
  forall d' : dict, dict_set d k v = Ok d' -> valid_dict n d'.
Proof.
  intros Hk Hv. induction 1 as [|[k' w] d [Hk' Hw] Hd IH]; intros d'; simpl.
  - intros [= <-]. by repeat constructor.
  - destruct (key_eq k' k) as [[|]|]; try done.
    + intros [= <-]. by constructor.
    + destruct (dict_set d k v) as [r| | |]; try done.
      intros [= <-]. constructor; [done|by apply IH].
Qed.

Lemma dict_update_valid (n : nat) (pairs : list (value * value)) :
  valid_dict n pairs ->
  forall d d' : dict,
    valid_dict n d -> dict_update d pairs = Ok d' -> valid_dict n d'.
Proof.
  induction 1 as [|[k v] pairs [Hk Hv] Hp IH]; intros d d' Hd; simpl.
  - by intros [= <-].
  - unfold dict_setitem. destruct (is_List k); [done|].
    destruct (dict_set d k v) as [d1| | |] eqn:E; try done. simpl in *.
    apply IH. by apply (dict_set_valid n k v d Hk Hv Hd d1).
Qed.

Lemma valid_dict_zip (n : nat) (ks vs : list value) :
  Forall (valid n) ks -> Forall (valid n) vs -> valid_dict n (zip ks vs).
Proof.
  intros Hks. revert vs. induction Hks as [|k ks Hk Hks IH]; intros vs Hvs.
  - constructor.
  - destruct Hvs as [|v vs Hv Hvs]; [constructor|].
    simpl. constructor; [done|by apply IH].
Qed.

Lemma state_ok_frame (st : state) (l : loc) (f : Env) :
  state_ok st -> heap st !! l = Some f ->
  valid_dict (length (heap st)) (items f).
Proof.
  intros [_ H] Hf. rewrite Forall_lookup in H. by eapply H.
Qed.

Lemma Atom_eval_preserves (n0 : nat) (x : value) (env : option loc) :
  valid n0 x -> preserves n0 valid (Atom_eval x env).
Proof.
  intros Hx st st' o Hok Hn E.
  assert (st' = st) as ->.
  { unfold Atom_eval in E. repeat case_match; by simplify_eq. }
  split_and!; [done|done|]. intros a ->.
  unfold Atom_eval in E.
  repeat case_match; simplify_eq; try by (eapply valid_mono; [|exact Hx]).
  eapply dict_get_valid; [by eapply state_ok_frame|done].
Qed.

Lemma Env_setitem_preserves (n0 : nat) (env : loc) (k v : value) :
  valid n0 k -> valid n0 v ->
  preserves n0 (fun _ _ => True) (Env_setitem env k v).
Proof.
  intros Hk Hv st st' o Hok Hn. unfold Env_setitem.
  destruct (heap st !! env) as [f|] eqn:Hf.
  2: { intros [= <- <-]. by split_and!. }
  unfold dict_setitem. destruct (is_List k).
  { intros [= <- <-]. by split_and!. }
  destruct (dict_set (items f) k v) as [d| | |] eqn:Hd;
    intros [= <- <-]; try by split_and!.
  simpl. rewrite length_insert. split_and!; [|done|done].
  split; simpl.
  - apply heap_wf_insert; [apply Hok|done].
  - rewrite length_insert. apply Forall_insert; [apply Hok|]. simpl.
    eapply dict_set_valid; [..|exact Hd].
    + by eapply valid_mono; [|exact Hk].
    + by eapply valid_mono; [|exact Hv].
    + by eapply state_ok_frame.
Qed.

Lemma Env_init_preserves (n0 : nat) (names args : list value) (cenv : loc) :
  Forall (valid n0) names -> Forall (valid n0) args -> (cenv < n0)%nat ->
  preserves n0 (fun n l => (l < n)%nat) (Env_init names args (Some cenv)).
Proof.
  intros Hnames Hargs Hc st st' o [Hwf Hfr] Hn. unfold Env_init.
  destruct (dict_update [] (zip names args)) as [d| | |] eqn:Hd;
    intros [= <- <-]; try by split_and!.
  simpl. rewrite length_app. simpl. split_and!; [|lia|].
  - split; simpl.
    + intros l f o Hf Ho. destruct (decide (l < length (heap st))%nat) as [Hl|Hl].
      * rewrite lookup_app_l in Hf by done. by eapply Hwf.
      * apply lookup_lt_Some in Hf as Hlt. rewrite length_app in Hlt.
        simpl in Hlt. assert (l = length (heap st)) as -> by lia.
        rewrite list_lookup_middle in Hf by done. injection Hf as <-.
        simpl in Ho. injection Ho as <-. lia.
    + rewrite length_app. simpl. apply Forall_app. split.
      * eapply Forall_impl; [exact Hfr|]. intros f. apply valid_dict_mono. lia.
      * constructor; [|done]. simpl.
        eapply (dict_update_valid _ (zip names args)); [|constructor|exact Hd].
        apply valid_dict_zip.
        -- eapply Forall_impl; [exact Hnames|]. intros v. apply valid_mono. lia.
        -- eapply Forall_impl; [exact Hargs|]. intros v. apply valid_mono. lia.
  - intros a [= <-]. lia.
Qed.

Lemma stdout_append_preserves (n0 : nat) (text : string) :
  preserves n0 (fun _ _ => True) (stdout_append text).
Proof. intros st st' o Hok Hn [= <- <-]. by split_and!. Qed.

(** *** The primitives *)

Lemma binop_valid (fz : Z -> Z -> Z) (ff : float -> float -> float)
  (a b v : value) (n : nat) :
  Arith.binop fz ff a b = Ok v -> valid n v.
Proof.
  unfold Arith.binop. intros H.
  repeat case_match; simplify_eq; try done.
  all: unfold outcome_bind in H; repeat case_match; by simplify_eq.
Qed.

Lemma mul_valid (a b v : value) (n : nat) : Arith.mul a b = Ok v -> valid n v.
Proof.
  unfold Arith.mul. intros H.
  repeat case_match; simplify_eq; by eapply binop_valid.
Qed.

Lemma truediv_valid (a b v : value) (n : nat) :
  Arith.truediv a b = Ok v -> valid n v.
Proof.
  unfold Arith.truediv. intros H.
  repeat case_match; simplify_eq; try done.
  all: unfold outcome_bind in H; repeat case_match; by simplify_eq.
Qed.

Lemma fold_valid (op : value -> value -> outcome value) (n : nat)
  (l : list value) :
  (forall a b v, op a b = Ok v -> valid n v) ->
  forall (acc : outcome value) (v : value),
    (forall a, acc = Ok a -> valid n a) ->
    fold_left (fun acc b => outcome_bind acc (fun p => op p b)) l acc = Ok v ->
    valid n v.
Proof.
  intros Hop. induction l as [|b l IH]; intros acc v Hacc; simpl.
  - apply Hacc.
  - apply IH. intros a. destruct acc; simpl; try done. apply Hop.
Qed.

Lemma py_getitem_valid (n : nat) (v x : value) (i : nat) :
  valid n v -> py_getitem v i = Ok x -> valid n x.
Proof.
  destruct v as [| | | |s|y|l|a b e|p]; simpl; try done.
  - intros _. by destruct (get i s); intros [= <-].
  - intros H. apply (valid_List n l) in H.
    destruct (l !! i) eqn:E; intros [= <-].
    rewrite Forall_lookup in H. by eapply H.
Qed.

Lemma call_prim_preserves (n0 : nat) (p : prim) (args : list value) :
  Forall (valid n0) args -> preserves n0 valid (call_prim p args).
Proof.
  intros Hargs.
  assert (Hm : forall (v : value) (n : nat),
             v ∈ args -> (n0 <= n)%nat -> valid n v).
  { intros v n Hv Hn. rewrite Forall_forall in Hargs.
    eapply valid_mono; [exact Hn|by apply Hargs]. }
  destruct p; simpl.
  - apply preserves_lift. intros v n H _. unfold Arith.sum in H.
    refine (fold_valid Arith.add n args _ (Ok (PInt 0)) v _ H).
    + intros a b w. apply binop_valid.
    + intros a [= ?]. by subst.
  - destruct args as [|a rest]; [apply preserves_raise|].
    apply preserves_lift. intros v n H _.
    destruct (Arith.sum rest); try done. by eapply binop_valid.
  - apply preserves_lift. intros v n H Hn. unfold Arith.reduce_mul in H.
    destruct args as [|a rest]; [done|].
    refine (fold_valid Arith.mul n rest _ (Ok a) v _ H).
    + intros ? ? ?. apply mul_valid.
    + intros b [= ?]. subst b. apply Hm; [by left|done].
  - destruct args as [|a rest]; [apply preserves_raise|].
    apply preserves_lift. intros v n H _.
    destruct (Arith.reduce_mul rest); try done. by eapply truediv_valid.
  - destruct args as [|a [|b [|c rest]]]; try apply preserves_raise.
    apply preserves_lift. intros v n H _. unfold py_order in H.
    repeat case_match; by simplify_eq.
  - destruct args as [|a [|b [|c rest]]]; try apply preserves_raise.
    apply preserves_lift. intros v n H _. unfold py_order in H.
    repeat case_match; by simplify_eq.
  - destruct args as [|a [|b [|c rest]]]; try apply preserves_raise.
    destruct (py_eq a b); [by apply preserves_ret|by apply preserves_lift].
  - destruct args as [|a [|b rest]]; try apply preserves_raise.
    apply preserves_lift. intros v n H Hn.
    eapply py_getitem_valid; [|exact H]. apply Hm; [by left|done].
  - destruct args as [|a [|b rest]]; try apply preserves_raise.
    apply preserves_lift. intros v n H Hn.
    assert (Ha : valid n a) by (apply Hm; [by left|done]).
    unfold py_tail in H.
    destruct a as [| | | |s|y|l|a1 a2 e|q]; simpl in H; simplify_eq.
    + apply valid_List, Forall_forall. intros x Hx.
      apply list_elem_of_fmap in Hx as (c & -> & _). done.
    + apply valid_List. apply valid_List in Ha.
      destruct l; [done|]. by inversion Ha.
  - destruct args as [|a [|b [|c rest]]]; try apply preserves_raise.
    assert (forall n, (n0 <= n)%nat -> valid n a /\ valid n b) as Hab.
    { intros n Hn. split; apply Hm; try done; [by left|right; by left]. }
    destruct b; apply preserves_ret; intros n Hn;
      destruct (Hab n Hn) as [Ha Hb]; try (simpl; by split_and!).
    apply valid_List. constructor; [done|]. by apply valid_List.
  - destruct args as [|a [|b rest]]; try apply preserves_raise.
    destruct (py_str a); [|by apply preserves_lift].
    eapply preserves_bind; [apply stdout_append_preserves|].
    intros _ n _ _. by apply preserves_ret.
Qed.

(** *** The evaluator *)

Section EvalPreserves.

Variable ev : value -> loc -> M value.
Hypothesis ev_preserves :
  forall (n : nat) (e : value) (env : loc),
    valid n e -> (env < n)%nat -> preserves n valid (ev e env).

Lemma for_each_ev_preserves (n0 : nat) (l : list value) (env : loc) :
  Forall (valid n0) l -> (env < n0)%nat ->
  preserves n0 (fun n ys => Forall (valid n) ys)
            (for_each (fun x => ev x env) l).
Proof.
  intros Hl Henv. apply preserves_for_each.
  - intros n m b Hnm. by apply valid_mono.
  - intros x n Hx Hn. apply ev_preserves; [|lia].
    rewrite Forall_forall in Hl. eapply valid_mono; [exact Hn|by apply Hl].
Qed.

Lemma eval_each_preserves (n0 : nat) (v : value) (env : loc) :
  valid n0 v -> (env < n0)%nat ->
  preserves n0 (fun n ys => Forall (valid n) ys) (eval_each ev v env).
Proof.
  intros Hv Henv. destruct v as [| | | |s|y|l|a b e|p]; simpl;
    try apply preserves_raise.
  - destruct s; [by apply preserves_ret|apply preserves_raise].
  - apply for_each_ev_preserves; [by apply valid_List|done].
Qed.

Lemma Udf_call_preserves (n0 : nat) (arg_names body : value) (cenv : loc)
  (args : list value) :
  valid n0 arg_names -> valid n0 body -> (cenv < n0)%nat ->
  Forall (valid n0) args ->
  preserves n0 valid (Udf_call ev arg_names body cenv args).
Proof.
  intros Han Hbody Hc Hargs. unfold Udf_call.
  destruct (is_Atom body || is_List body)%bool; [|apply preserves_raise].
  eapply preserves_bind; [by apply eval_each_preserves|].
  intros names n Hn Hnames. eapply preserves_bind.
  - apply Env_init_preserves; [done| |lia].
    eapply Forall_impl; [exact Hargs|]. intros v. by apply valid_mono.
  - intros l m Hm Hl. apply ev_preserves; [|done].
    eapply valid_mono; [|exact Hbody]. lia.
Qed.

Lemma call_preserves (n0 : nat) (op : value) (values : list value) :
  valid n0 op -> Forall (valid n0) values ->
  preserves n0 valid (call ev op values).
Proof.
  intros Hop Hvs. destruct op as [| | | |s|y|l|a b e|p]; simpl;
    try apply preserves_raise.
  - destruct Hop as (He & Ha & Hb). by apply Udf_call_preserves.
  - by apply call_prim_preserves.
Qed.

Lemma getitem_preserves (n0 : nat) (v : value) (i : nat) :
  valid n0 v -> preserves n0 valid (lift (py_getitem v i)).
Proof.
  intros Hv. apply preserves_lift. intros x n H Hn.
  eapply py_getitem_valid; [|exact H]. by eapply valid_mono.
Qed.

Lemma cond_loop_preserves (args : list value) (env : loc) :
  forall n0 : nat,
    Forall (valid n0) args -> (env < n0)%nat ->
    preserves n0 valid (cond_loop ev args env).
Proof.
  induction args as [|t args IH]; intros n0 Hargs Henv; simpl.
  - by apply preserves_ret.
  - inversion Hargs as [|? ? Ht Hrest]; subst.
    eapply preserves_bind; [by apply getitem_preserves|].
    intros test n Hn Htest. eapply preserves_bind.
    + apply ev_preserves; [done|lia].
    + intros r m Hm Hr. destruct (py_truth r).
      * eapply preserves_bind.
        -- apply getitem_preserves. eapply valid_mono; [|exact Ht]. lia.
        -- intros res k Hk Hres. apply ev_preserves; [done|lia].
      * apply IH; [|lia]. eapply Forall_impl; [exact Hrest|].
        intros v. apply valid_mono. lia.
Qed.

Lemma dispatch_preserves (n0 : nat) (op : value) (args : list value)
  (env : loc) :
  valid n0 op -> Forall (valid n0) args -> (env < n0)%nat ->
  preserves n0 valid (dispatch ev op args env).
Proof.
  intros Hop Hargs Henv. unfold dispatch.
  assert (HL : forall n, (n0 <= n)%nat -> valid n (List args)).
  { intros n Hn. apply valid_List. eapply Forall_impl; [exact Hargs|].
    intros v. by apply valid_mono. }
  destruct (is_kw op KW_QUOTE).
  { eapply preserves_bind; [apply preserves_assert|].
    intros _ n Hn _. apply getitem_preserves. by apply HL. }
  destruct (is_kw op KW_ATOM).
  { eapply preserves_bind; [apply preserves_assert|].
    intros _ n Hn _. eapply preserves_bind.
    - apply getitem_preserves. by apply HL.
    - intros a m Hm Ha. destruct (is_Atom a); [by apply preserves_ret|].
      eapply preserves_bind; [apply ev_preserves; [done|lia]|].
      intros v k Hk Hv. by apply preserves_ret. }
  destruct (is_kw op KW_DEFINE).
  { eapply preserves_bind; [apply preserves_assert|].
    intros _ n Hn _. eapply preserves_bind.
    { apply getitem_preserves. by apply HL. }
    intros rhs n1 Hn1 Hrhs. eapply preserves_bind.
    { apply ev_preserves; [done|lia]. }
    intros v n2 Hn2 Hv. eapply preserves_bind.
    { apply getitem_preserves. apply HL. lia. }
    intros lhs n3 Hn3 Hlhs. eapply preserves_bind.
    { apply ev_preserves; [done|lia]. }
    intros k n4 Hn4 Hk. eapply preserves_bind.
    { apply Env_setitem_preserves; [done|].
      eapply valid_mono; [|exact Hv]. lia. }
    intros _ n5 _ _. by apply preserves_ret. }
  destruct (is_kw op KW_LAMBDA).
  { eapply preserves_bind; [apply preserves_assert|].
    intros _ n Hn _. eapply preserves_bind.
    { apply getitem_preserves. by apply HL. }
    intros a0 n1 Hn1 Ha0. eapply preserves_bind.
    { apply getitem_preserves. apply HL. lia. }
    intros a1 n2 Hn2 Ha1. apply preserves_ret. intros m Hm. simpl.
    split_and!; [lia| |by eapply valid_mono; [|exact Ha1]].
    eapply valid_mono; [|exact Ha0]. lia. }
  destruct (is_kw op KW_COND).
  { by apply cond_loop_preserves. }
  eapply preserves_bind; [by apply for_each_ev_preserves|].
  intros values n Hn Hvalues. eapply preserves_bind; [apply preserves_assert|].
  intros _ m Hm _. apply call_preserves.
  - eapply valid_mono; [|exact Hop]. lia.
  - eapply Forall_impl; [exact Hvalues|]. intros v. by apply valid_mono.
Qed.

Lemma eval_method_preserves (n0 : nat) (e : value) (env : loc) :
  valid n0 e -> (env < n0)%nat -> preserves n0 valid (eval_method ev e env).
Proof.
  intros He Henv. destruct e as [| | | |s|y|l|a b c|p]; simpl;
    try apply preserves_raise.
  - by apply Atom_eval_preserves.
  - unfold List_eval. apply valid_List in He.
    destruct (last l) as [op_expr|] eqn:Hlast; [|apply preserves_raise].
    apply last_Some in Hlast as [args ->].
    rewrite removelast_last. apply Forall_app in He as [Hargs Hop].
    inversion Hop; subst.
    eapply preserves_bind; [by apply ev_preserves|].
    intros op n Hn Hopv. apply dispatch_preserves; [done| |lia].
    eapply Forall_impl; [exact Hargs|]. intros v. by apply valid_mono.
Qed.

End EvalPreserves.

(** Evaluation keeps the store sound: every object that a closure or a
    chain refers to exists. *)
Lemma eval_preserves (fuel : nat) :
  forall (n : nat) (e : value) (env : loc),
    valid n e -> (env < n)%nat -> preserves n valid (eval fuel e env).
Proof.
  induction fuel as [|fuel IH]; intros n e env He Henv; simpl.
  - by apply preserves_lift.
  - by apply eval_method_preserves.
Qed.

(** What [parse] builds contains no closure. *)
Lemma Atom_init_valid (n : nat) (t : string) : valid n (Atom_init t).
Proof. unfold Atom_init. by repeat case_match. Qed.

Lemma parse_valid (n : nat) (fuel : nat) :
  (forall (ts rest : list string) (e : value),
      parse_fuel fuel ts = Ok (e, rest) -> valid n e) /\
  (forall (sexp : list value) (ts rest : list string) (e : value),
      Forall (valid n) sexp ->
      parse_while fuel sexp ts = Ok (e, rest) -> valid n e).
Proof.
  induction fuel as [|fuel [IHp IHw]]; [by split|]. split.
  - intros [|t ts] rest e; simpl; [done|].
    destruct (String.eqb t "("); [by apply IHw|].
    destruct (String.eqb t ")"); [done|].
    intros [= <- _]. apply Atom_init_valid.
  - intros sexp [|t0 ts] rest e Hs; simpl; [done|].
    destruct (negb (String.eqb t0 ")")).
    + destruct (parse_fuel fuel (t0 :: ts)) as [[child ts']| | |] eqn:E;
        try done.
      destruct ts'; [done|]. apply IHw. apply Forall_app. split; [done|].
      constructor; [by eapply IHp|done].
    + intros [= <- _]. by apply valid_List.
Qed.

Lemma parse_Ok_valid (n : nat) (ts rest : list string) (e : value) :
  parse ts = Ok (e, rest) -> valid n e.
Proof. unfold parse. apply (proj1 (parse_valid n _)). Qed.

Lemma parse_all_valid (n : nat) (fuel : nat) :
  forall (ts : list string) (acc sexps : list value),
    Forall (valid n) acc ->
    parse_all fuel acc ts = Ok sexps -> Forall (valid n) sexps.
Proof.
  induction fuel as [|fuel IH]; intros [|t ts] acc sexps Hacc;
    cbn [parse_all]; try (by intros [= <-]); try done.
  destruct (parse (t :: ts)) as [[e rest]| | |] eqn:E; try done.
  cbn [outcome_bind]. apply IH. apply Forall_app. split; [done|].
  constructor; [by eapply parse_Ok_valid|done].
Qed.

(** The session starts from a sound store. *)
Lemma Program_init_ok : state_ok Program_init.
Proof.
  split.
  - intros [|l] f o Hf Ho; simpl in Hf; [|by destruct l].
    injection Hf as <-. discriminate.
  - repeat constructor.
Qed.

(** Every store that a session reaches is sound; in particular its chains
    point to older objects. *)
Lemma Program_run_ok (fuel : nat) (s : string) (st : state)
  (o : outcome (list value)) :
  Program_run fuel s Program_init = (o, st) ->
  state_ok st /\ heap_wf (heap st).
Proof.
  intros H.
  assert (Hp : preserves 1 (fun n vs => Forall (valid n) vs)
                 (Program_run fuel s)).
  { unfold Program_run. eapply preserves_bind.
    - apply (preserves_lift 1 (fun n sexps => Forall (valid n) sexps)).
      intros sexps n Hs _. unfold Program_sexps in Hs.
      destruct (String.eqb s EmptyString); [done|].
      eapply parse_all_valid; [|exact Hs]. constructor.
    - intros sexps n Hn Hs. unfold Program_values.
      apply preserves_for_each.
      + intros ? ? ? ?. by apply valid_mono.
      + intros e m He Hm. apply eval_preserves; [|unfold root; lia].
        rewrite Forall_forall in Hs.
        eapply valid_mono; [exact Hm|by apply Hs]. }
  destruct (Hp _ _ _ Program_init_ok ltac:(simpl; lia) H) as (Hok & _).
  split; [done|apply Hok].
Qed.

(** ** More on the lexer *)

Lemma concat_str_app (l1 l2 : list string) :
  concat_str (l1 ++ l2) = (concat_str l1 ++ concat_str l2)%string.
Proof.
  induction l1 as [|t l1 IH]; simpl; [done|]. by rewrite IH, str_app_assoc.
Qed.

Lemma concat_str_flush (w : string) : concat_str (Str.flush w) = w.
Proof. destruct w; simpl; [done|]. by rewrite str_app_nil_r. Qed.

Lemma concat_str_scan (s w : string) :
  concat_str (scan w s) = (w ++ drop_spaces s)%string.
Proof.
  revert w. induction s as [|c s IH]; intros w; simpl.
  - by rewrite concat_str_flush, str_app_nil_r.
  - destruct (Str.isspace c).
    + by rewrite concat_str_app, concat_str_flush, IH.
    + destruct (is_paren c).
      * rewrite concat_str_app, concat_str_flush. simpl. by rewrite IH.
      * by rewrite IH, append_snoc.
Qed.

(** X1. [tokenize] loses whitespace and nothing else: the tokens, put one
    after the other, are the text without its whitespace; no token is
    empty; and a token that contains a parenthesis is that parenthesis
    alone. *)
Theorem tokenize_keeps_text (s : string) :
  concat_str (tokenize s) = drop_spaces s /\
  Forall (fun t => t <> EmptyString) (tokenize s) /\
  Forall (fun t => t = "(" \/ t = ")" \/ all_ok t = true) (tokenize s).
Proof.
  rewrite tokenize_scan. split; [apply concat_str_scan|].
  pose proof (scan_tokens_ok s EmptyString eq_refl) as H.
  split; (eapply Forall_impl; [exact H|]); intros t [->|[->|[Hne Hok]]]; auto.
Qed.

Lemma scan_ok_app (t s w : string) :
  all_ok t = true -> scan w (t ++ s) = scan (w ++ t) s.
Proof.
  revert w. induction t as [|c t IH]; intros w H; simpl.
  - by rewrite str_app_nil_r.
  - apply andb_true_iff in H as [Hc Ht]. unfold okchar in Hc.
    apply andb_true_iff in Hc as [Hsp Hp]. apply negb_true_iff in Hsp, Hp.
    rewrite Hsp, Hp, IH by done. by rewrite append_snoc.
Qed.

(** A token followed by a blank is read back and the scan goes on. *)
Lemma scan_token_blank (t r : string) :
  token_ok t -> scan EmptyString (t ++ String " " r) = t :: scan EmptyString r.
Proof.
  intros [->|[->|[Hne Hok]]]; [done|done|].
  rewrite scan_ok_app by done. simpl. by destruct t.
Qed.

Lemma scan_token_end (t : string) :
  token_ok t -> scan EmptyString t = [t].
Proof.
  intros [->|[->|[Hne Hok]]]; [done|done|].
  rewrite scan_clean by done. simpl. by destruct t.
Qed.

(** X2. Tokens joined by single blanks are tokenized into themselves: for
    every text, tokenizing the blank-joined tokens of the text gives the
    tokens of the text again. *)
Theorem tokenize_join_tokenize (s : string) :
  tokenize (Str.join " " (tokenize s)) = tokenize s.
Proof.
  pose proof (scan_tokens_ok s EmptyString eq_refl) as H.
  rewrite <- tokenize_scan in H. rewrite tokenize_scan at 1.
  induction H as [|t [|t' ts] Ht Hts IH]; [done| |].
  - by apply scan_token_end.
  - change (Str.join " " (t :: t' :: ts))
      with (t ++ String " " (Str.join " " (t' :: ts)))%string.
    rewrite scan_token_blank by done. by rewrite IH.
Qed.

Lemma scan_all_space (s : string) :
  all_space s = true -> scan EmptyString s = [].
Proof.
  induction s as [|c s IH]; simpl; [done|]. intros H.
  apply andb_true_iff in H as [-> Hs]. by rewrite IH.
Qed.

(** X12. A source text that is not empty but holds whitespace only passes
    the empty-program check of [Program.__init__], yields no form at all,
    and makes [Program.eval] raise [IndexError] (from [values[-1]]); the
    [SyntaxError] for an empty program is raised for the empty text only. *)
Theorem whitespace_program_IndexError (fuel : nat) (s : string) :
  s <> EmptyString -> all_space s = true ->
  Program_sexps s = Ok [] /\
  Program_output fuel s = Raise IndexError /\
  Program_sexps EmptyString = Raise (SyntaxError "Empty program").
Proof.
  intros Hne Hsp. apply String.eqb_neq in Hne.
  assert (Hs : Program_sexps s = Ok []).
  { unfold Program_sexps. rewrite Hne, tokenize_scan, scan_all_space by done.
    done. }
  split_and!; [done| |done].
  unfold Program_output, bind, lift. by rewrite Hs.
Qed.

(** A blank and a line feed. *)
Lemma whitespace_program_IndexError_witness :
  String " " (String "010" EmptyString) <> EmptyString /\
  Program_output 5 (String " " (String "010" EmptyString)) = Raise IndexError.
Proof.
  split; [discriminate|].
  exact (proj1 (proj2 (whitespace_program_IndexError 5
                         (String " " (String "010" EmptyString))
                         ltac:(discriminate) eq_refl))).
Defined.

(** ** More on the parser *)

(** "(a (b" ends inside two lists, "(a (" right after a parenthesis. *)
Lemma parse_unterminated_witness :
  unclosed 0 ["a"; "("; "b"] = true /\
  parse ["("; "a"; "("; "b"] = Raise (SyntaxError "Missing )") /\
  parse ["("; "a"; "("] = Raise IndexError.
Proof.
  split; [reflexivity|]. split.
  - exact (parse_unterminated ["a"; "("; "b"] eq_refl).
  - exact (parse_unterminated ["a"; "("] eq_refl).
Defined.

(** X4. [parse] on any queue either returns a tree together with the rest
    of the queue, having removed at least one token from its front, or
    raises one of three errors: [IndexError], [SyntaxError("Missing )")] or
    [SyntaxError("Unexpected )")]. It never fails in another way and the
    fuel of the embedding always suffices. *)
Theorem parse_outcomes (ts : list string) :
  (exists (e : value) (consumed rest : list string),
      parse ts = Ok (e, rest) /\ ts = (consumed ++ rest)%list /\ consumed <> []) \/
  parse ts = Raise IndexError \/
  parse ts = Raise (SyntaxError "Missing )") \/
  parse ts = Raise (SyntaxError "Unexpected )").
Proof.
  destruct ts as [|t ts]; [right; by left|].
  destruct (String.eqb_spec t ")") as [->|Hc].
  { do 3 right. unfold parse. by rewrite Nat.add_1_r. }
  destruct (proj1 (parse_shape (2 * length (t :: ts) + 1)) (t :: ts)
              ltac:(done) ltac:(simpl; congruence) ltac:(lia)) as
    [(e & consumed & rest & H & Hts & Hne & _)|[H _]].
  - left. by exists e, consumed, rest.
  - right. unfold parse. rewrite H. unfold unterminated_error.
    destruct (ends_open (t :: ts)); [by left|right; by left].
Qed.

Lemma tree_ok_List (l : list value) : tree_ok (List l) <-> Forall tree_ok l.
Proof.
  induction l as [|x l IH]; simpl.
  - split; [constructor|done].
  - rewrite Forall_cons. simpl in IH. by rewrite IH.
Qed.

Lemma tokens_of_List (l : list value) :
  tokens_of (List l) = ("(" :: concat (tokens_of <$> l) ++ [")"])%list.
Proof.
  simpl. do 2 f_equal. induction l as [|x l IH]; simpl; [done|]. by rewrite IH.
Qed.

(** The first token of a tree is no close parenthesis and starts a form. *)
Lemma tokens_of_head (e : value) :
  tree_ok e -> exists (t : string) (ts : list string),
    tokens_of e = t :: ts /\ t <> ")" /\
    (t = "(" \/ (t <> "(" /\ ts = [] /\ Atom_init t = e)).
Proof.
  destruct e as [| | | | |x|l|a b c|p]; simpl; try done.
  - destruct x as [| |z| |s| | | |]; try done.
    + intros _. exists (Str.of_Z z), []. split; [done|].
      destruct (clean_not_paren _ (of_Z_clean z)) as [Ho Hc].
      split; [done|]. right. split_and!; try done.
      unfold Atom_init. by rewrite int_of_str_of_Z.
    + intros [Hcl Hinit]. exists s, []. split; [done|].
      destruct (clean_not_paren _ Hcl) as [Ho Hc]. split; [done|].
      right. by split_and!.
  - intros _. eexists _, _. split; [done|]. split; [done|by left].
Qed.

(** The parser reads the tokens of a tree back, for both of its loops. *)
Lemma parse_tokens_of_gen (e : value) :
  tree_ok e ->
  forall (fuel : nat) (rest : list string),
    (2 * length (tokens_of e ++ rest) <= fuel)%nat ->
    parse_fuel fuel (tokens_of e ++ rest) = Ok (e, rest).
Proof.
  induction e as [| | | | |x IH|l IH|a b c IHa IHb|] using value_ind;
    try done.
  - (* an atom *)
    intros Hok fuel rest Hlen.
    destruct (tokens_of_head _ Hok) as (t & ts & Hts & Hc & [->|(Ho & -> & Hi)]).
    { destruct x as [| |z| |s| | | |]; try done; simpl in Hts.
      - injection Hts as Hz. destruct (clean_not_paren _ (of_Z_clean z)).
        congruence.
      - injection Hts as ->. destruct Hok as [Hcl _].
        by destruct (clean_not_paren _ Hcl). }
    rewrite Hts in *. simpl in Hlen. destruct fuel as [|fuel]; [lia|].
    simpl. apply String.eqb_neq in Ho, Hc. by rewrite Ho, Hc, Hi.
  - (* a list *)
    intros Hok fuel rest Hlen. apply tree_ok_List in Hok.
    rewrite tokens_of_List in *. simpl in Hlen.
    destruct fuel as [|fuel]; [lia|]. cbn [app parse_fuel]. simpl String.eqb.
    rewrite <- app_assoc. simpl app.
    assert (Hloop : forall (xs : list value),
               Forall tree_ok xs ->
               Forall (fun e => tree_ok e ->
                          forall fuel rest,
                            (2 * length (tokens_of e ++ rest) <= fuel)%nat ->
                            parse_fuel fuel (tokens_of e ++ rest) = Ok (e, rest))
                      xs ->
               forall (fuel : nat) (sexp : list value),
                 (2 * length (concat (tokens_of <$> xs) ++ ")" :: rest) + 1
                  <= fuel)%nat ->
                 parse_while fuel sexp (concat (tokens_of <$> xs) ++ ")" :: rest)
                 = Ok (List (sexp ++ xs), rest)).
    { clear. induction xs as [|x xs IHi]; intros Hok IH fuel sexp Hlen.
      - destruct fuel as [|fuel]; [simpl in Hlen; lia|]. simpl.
        by rewrite app_nil_r.
      - inversion Hok as [|? ? Hx Hxs]; subst.
        inversion IH as [|? ? IHx IHxs]; subst.
        destruct fuel as [|fuel]; [simpl in Hlen; lia|].
        destruct (tokens_of_head _ Hx) as (t & ts & Hts & Hc & _).
        cbn [fmap list_fmap concat]. rewrite <- app_assoc.
        cbn [fmap list_fmap concat] in Hlen. rewrite <- app_assoc in Hlen.
        set (tail := (concat (tokens_of <$> xs) ++ ")" :: rest)%list) in *.
        assert (Hl : (length (tokens_of x ++ tail)
                      = S (length ts) + length tail)%nat).
        { by rewrite Hts, length_app. }
        assert (Hstep : parse_while (S fuel) sexp (tokens_of x ++ tail)
                        = match parse_fuel fuel (tokens_of x ++ tail) with
                          | Ok (child, tokens') =>
                              match tokens' with
                              | [] => Raise (SyntaxError "Missing )")
                              | _ => parse_while fuel (sexp ++ [child]) tokens'
                              end
                          | Raise e => Raise e
                          | OutOfFuel => OutOfFuel
                          | Unsupported => Unsupported
                          end).
        { rewrite Hts. simpl. apply String.eqb_neq in Hc. by rewrite Hc. }
        rewrite Hstep, (IHx Hx fuel tail) by lia.
        assert (Hgo : match tail with
                      | [] => Raise (SyntaxError "Missing )")
                      | _ => parse_while fuel (sexp ++ [x])%list tail
                      end = parse_while fuel (sexp ++ [x])%list tail).
        { unfold tail. by destruct (concat (tokens_of <$> xs)). }
        rewrite Hgo, (IHi Hxs IHxs fuel (sexp ++ [x])%list) by lia.
        by rewrite <- app_assoc. }
    rewrite (Hloop l Hok IH fuel []); [done|].
    rewrite length_app in Hlen. simpl in Hlen. rewrite length_app.
    rewrite !length_app in Hlen. simpl in *. lia.
Qed.

(** X5. [parse] is a left inverse of spelling a tree out as tokens: for a
    tree of integers, symbols and lists, the parser reads the tokens of the
    tree back as that tree and leaves what follows them in the queue. *)
Theorem parse_tokens_of (e : value) (rest : list string) :
  tree_ok e -> parse (tokens_of e ++ rest) = Ok (e, rest).
Proof.
  intros Hok. unfold parse. apply parse_tokens_of_gen; [done|lia].
Qed.

(** The tree [(1 (x) -2)] followed by another form. *)
Lemma parse_tokens_of_witness :
  let e := List [Atom (PInt 1); List [Atom (PStr "x")]; Atom (PInt (-2))] in
  tree_ok e /\
  tokens_of e = ["("; "1"; "("; "x"; ")"; "-2"; ")"] /\
  parse (tokens_of e ++ ["y"]) = Ok (e, ["y"]).
Proof.
  intros e.
  assert (Hok : tree_ok e).
  { simpl. repeat split; discriminate. }
  split; [exact Hok|]. split; [reflexivity|].
  exact (parse_tokens_of e ["y"] Hok).
Defined.

(** ** More on the primitives *)

Lemma fold_add_ints (zs : list Z) :
  forall acc : Z,
    fold_left (fun acc a => outcome_bind acc (fun s => Arith.add s a))
              (PInt <$> zs) (Ok (PInt acc))
    = Ok (PInt (fold_left Z.add zs acc)).
Proof. induction zs as [|z zs IH]; intros acc; simpl; [done|apply IH]. Qed.

Lemma fold_mul_ints (zs : list Z) :
  forall acc : Z,
    fold_left (fun acc b => outcome_bind acc (fun p => Arith.mul p b))
              (PInt <$> zs) (Ok (PInt acc))
    = Ok (PInt (fold_left Z.mul zs acc)).
Proof. induction zs as [|z zs IH]; intros acc; simpl; [done|apply IH]. Qed.

(** X6. On integers the variadic primitives are exact, whatever the number
    of arguments: "+" is the sum (0 for no argument), "-" is the first
    argument minus the sum of the others (the argument itself when it is
    alone), "*" is the product. The store is not touched. *)
Theorem int_arithmetic (a : Z) (zs : list Z) (st : state) :
  call_prim p_add (PInt <$> zs) st = (Ok (PInt (fold_left Z.add zs 0)), st) /\
  call_prim p_sub (PInt a :: (PInt <$> zs)) st
  = (Ok (PInt (a - fold_left Z.add zs 0)), st) /\
  call_prim p_mul (PInt a :: (PInt <$> zs)) st
  = (Ok (PInt (fold_left Z.mul zs a)), st).
Proof.
  split_and!.
  - simpl. unfold lift, Arith.sum. by rewrite fold_add_ints.
  - simpl. unfold lift, Arith.sum. by rewrite fold_add_ints.
  - simpl. unfold lift. by rewrite fold_mul_ints.
Qed.

(** X7. "/" raises [ZeroDivisionError] whenever the product of the
    arguments after the first is the integer zero, for every numeric first
    argument, integer or float. *)
Theorem div_by_zero_product (a : value) (z : Z) (zs : list Z) (st : state) :
  Arith.as_num a <> None ->
  fold_left Z.mul zs z = 0 ->
  call_prim p_div (a :: PInt z :: (PInt <$> zs)) st
  = (Raise ZeroDivisionError, st).
Proof.
  intros Ha Hz. simpl. unfold lift. rewrite fold_mul_ints, Hz. simpl.
  unfold Arith.truediv. destruct (Arith.as_num a) as [[x|f]|]; try done.
Qed.

(** [(7 3 0 5 /)]. *)
Lemma div_by_zero_product_witness :
  Arith.as_num (PInt 7) <> None /\
  fold_left Z.mul [0; 5] 3 = 0 /\
  call_prim p_div [PInt 7; PInt 3; PInt 0; PInt 5] Program_init
  = (Raise ZeroDivisionError, Program_init).
Proof.
  assert (Ha : Arith.as_num (PInt 7) <> None) by discriminate.
  split; [exact Ha|]. split; [reflexivity|].
  exact (div_by_zero_product (PInt 7) 3 [0; 5] Program_init Ha eq_refl).
Defined.

(** X8. "car" and "cdr" undo "cons": the first element of [cons(x, y)] is
    [x] for all objects [x] and [y]; its rest is [y] itself when [y] is a
    [List], and the one-element list of [y] otherwise, so that no pair with
    a tail that is not a list exists. *)
Theorem car_cdr_cons (x y : value) (st : state) :
  (do c <- call_prim p_cons [x; y] ; call_prim p_car [c]) st = (Ok x, st) /\
  (do c <- call_prim p_cons [x; y] ; call_prim p_cdr [c]) st
  = (Ok (if is_List y then y else List [y]), st).
Proof.
  destruct y; split; reflexivity.
Qed.

(** ** More on lookups *)

Lemma nearest_nonempty (h : list Env) (s : string) (v : value) (l : loc) :
  nearest h s v l -> Env_truth h (Some l) = true.
Proof.
  unfold Env_truth. destruct 1 as [l f Hf Hg|l f o Hf Hne _ _ _]; rewrite Hf.
  - by destruct (items f).
  - by destruct (items f).
Qed.

(** [Env.find] ends on the object that holds the nearest binding. *)
Lemma Env_find_nearest (h : list Env) (s : string) (v : value) (l : loc) :
  heap_wf h -> nearest h s v l ->
  forall fuel : nat,
    (l < fuel)%nat ->
    exists (l' : loc) (f' : Env),
      Env_find fuel h l s = Ok l' /\ h !! l' = Some f' /\
      dict_get (items f') s = Some v.
Proof.
  intros Hwf. induction 1 as [l f Hf Hg|l f o Hf Hne Hg Ho Hn IH];
    intros [|fuel] Hl; try lia; simpl; rewrite Hf.
  - unfold dict_mem. rewrite Hg, orb_true_r. eauto.
  - unfold dict_mem. rewrite Hg, Ho, (nearest_nonempty _ _ _ _ Hn). simpl.
    apply IH. pose proof (Hwf _ _ _ Hf Ho). lia.
Qed.

Lemma eval_Atom_nearest (fuel : nat) (st : state) (env : loc) (s : string)
  (v : value) :
  heap_wf (heap st) -> nearest (heap st) s v env ->
  eval (S fuel) (Atom (PStr s)) env st = (Ok v, st).
Proof.
  intros Hwf Hn.
  change (eval (S fuel) (Atom (PStr s)) env st)
    with (Atom_eval (PStr s) (Some env) st).
  unfold Atom_eval. rewrite (nearest_nonempty _ _ _ _ Hn).
  assert (env < length (heap st))%nat as Hlt.
  { destruct Hn as [? ? Hf _|? ? ? Hf _ _ _ _]; by eapply lookup_lt_Some. }
  destruct (Env_find_nearest _ _ _ _ Hwf Hn _ Hlt) as (l' & f' & -> & -> & ->).
  done.
Qed.

(** X14. Lexical lookup: in a store whose chains point to older objects,
    a symbol evaluates to the value of its nearest binding, the one found
    first when going outwards from the current [Env] object, provided the
    objects passed on the way are not empty. The store is not touched. *)
Theorem lookup_nearest_binding (fuel : nat) (st : state) (env : loc)
  (s : string) (v : value) :
  heap_wf (heap st) -> nearest (heap st) s v env ->
  eval (S fuel) (Atom (PStr s)) env st = (Ok v, st) /\
  Atom_eval (PStr s) (Some env) st = (Ok v, st).
Proof.
  intros Hwf Hn. split; by apply (eval_Atom_nearest fuel).
Qed.

(** A frame [y := 2] inside a frame [x := 1] inside the root: from the
    innermost one, "x" is 1 and "+" is the primitive. *)
Lemma lookup_nearest_binding_witness :
  let st := mkState [mkEnv root_items None;
                     mkEnv [(PStr "x", PInt 1)] (Some 0%nat);
                     mkEnv [(PStr "y", PInt 2)] (Some 1%nat)] [] in
  heap_wf (heap st) /\
  nearest (heap st) "+" (Prim p_add) 2%nat /\
  eval 1 (Atom (PStr "+")) 2%nat st = (Ok (Prim p_add), st).
Proof.
  intros st.
  assert (Hwf : heap_wf (heap st)).
  { intros [|[|[|l]]] f o Hf Ho; simpl in Hf; try done;
      injection Hf as <-; simpl in Ho; try done; injection Ho as <-; lia. }
  assert (Hn : nearest (heap st) "+" (Prim p_add) 2%nat).
  { eapply nearest_outer; [reflexivity|done|reflexivity|reflexivity|].
    eapply nearest_outer; [reflexivity|done|reflexivity|reflexivity|].
    eapply nearest_here; reflexivity. }
  split; [exact Hwf|]. split; [exact Hn|].
  exact (proj1 (lookup_nearest_binding 0 st 2%nat "+" (Prim p_add) Hwf Hn)).
Defined.




Lemma dispatch_cond (ev : value -> loc -> M value) (args : list value)
  (env : loc) :
  dispatch ev (PStr KW_COND) args env = cond_loop ev args env.
Proof. reflexivity. Qed.

(** X13. Any symbol without a binding counts as true in a test of [cond]:
    it evaluates to its own text, a non-empty string. A [cond] whose first
    pair has such a symbol as its test (for instance the symbol "false")
    evaluates to the result of that first pair, whatever pairs follow. *)
Theorem cond_unbound_test_is_true (fuel : nat) (env : loc) (st : state)
  (s : string) (r : value) (more : list value) :
  heap_wf (heap st) ->
  unbound (heap st) env s ->
  unbound (heap st) env KW_COND ->
  s <> EmptyString ->
  eval (S (S fuel))
       (List (List [Atom (PStr s); r] :: more ++ [Atom (PStr KW_COND)])) env st
  = eval (S fuel) r env st.
Proof.
  intros Hwf Hs Hcond Hne.
  change (List (List [Atom (PStr s); r] :: more ++ [Atom (PStr KW_COND)]))
    with (List ((List [Atom (PStr s); r] :: more) ++ [Atom (PStr KW_COND)])).
  rewrite eval_List_snoc. unfold bind at 1.
  rewrite (eval_Atom_self fuel st env KW_COND) by done.
  rewrite dispatch_cond. cbn [cond_loop]. unfold bind, lift. cbn [py_getitem].
  cbn [lookup list_lookup].
  rewrite (eval_Atom_self fuel st env s) by done.
  cbn [py_truth]. apply String.eqb_neq in Hne. rewrite Hne. done.
Qed.

(** The spec's own example: [((false 1) (true 2) cond)] is 1. *)
Lemma cond_unbound_test_is_true_witness :
  heap_wf (heap Program_init) /\
  unbound (heap Program_init) root "false" /\
  Program_run 3 "((false 1) (true 2) cond)" Program_init
  = (Ok [PInt 1], Program_init).
Proof.
  assert (Hwf : heap_wf (heap Program_init)).
  { intros [|l] f o Hf Ho; simpl in Hf; [|by destruct l].
    injection Hf as <-. discriminate. }
  assert (Hun : forall s : string,
             dict_mem root_items s = false -> unbound (heap Program_init) root s).
  { intros s Hs l f Hch Hf. inversion Hch; subst.
    - by injection Hf as <-.
    - simpl in H. injection H as <-. discriminate. }
  split; [exact Hwf|]. split; [by apply Hun|].
  change (Program_run 3 "((false 1) (true 2) cond)" Program_init) with
    ((do v <- eval 3 (List (List [Atom (PStr "false"); Atom (PInt 1)]
                            :: [List [Atom (PStr "true"); Atom (PInt 2)]]
                            ++ [Atom (PStr KW_COND)])) root ;
      do vs <- ret [] ; ret (v :: vs)) Program_init).
  unfold bind at 1.
  rewrite (cond_unbound_test_is_true 1 root Program_init "false" (Atom (PInt 1))
             [List [Atom (PStr "true"); Atom (PInt 2)]] Hwf
             (Hun "false" eq_refl) (Hun KW_COND eq_refl) ltac:(discriminate)).
  reflexivity.
Defined.

(** ** More on closures *)

Lemma for_each_Atoms_empty (fuel : nat) (st : state) (env : loc) (f : Env)
  (l : list value) :
  heap st !! env = Some f -> items f = [] ->
  Forall (fun a => is_Atom a = true) l ->
  exists vs : list value,
    for_each (fun a => eval (S fuel) a env) l st = (Ok vs, st).
Proof.
  intros Hf Hi. induction 1 as [|a l Ha Hl (vs & IH)]; cbn [for_each].
  - by exists [].
  - destruct a as [| | | | |x| | |]; try done. unfold bind.
    assert (Hx : eval (S fuel) (Atom x) env st = (Ok x, st)).
    { simpl. unfold Atom_eval, Env_truth. rewrite Hf, Hi. by destruct x. }
    rewrite Hx, IH. by eexists.
Qed.

(** X9. A closure called without arguments, or one that has no formals, runs
    its body in a new [Env] object that is empty. An empty dictionary is
    false as a condition, so no symbol of the body is looked up: the
    operator of an application evaluates to its own text, which is not
    callable, and the call raises [AssertionError], even for a primitive
    such as "+". *)
Theorem call_with_empty_frame (fuel : nat) (items names args bargs : list value)
  (op : string) (cenv : loc) (st st1 : state) :
  for_each (fun a => eval (S (S fuel)) a cenv) items st = (Ok names, st1) ->
  names = [] \/ args = [] ->
  Forall (fun a => is_Atom a = true) bargs ->
  (forall kw : string, kw ∈ keywords -> op <> kw) ->
  call (eval (S (S fuel)))
       (Udf (List items) (List (bargs ++ [Atom (PStr op)])) cenv) args st
  = (Raise AssertionError,
     mkState (heap st1 ++ [mkEnv [] (Some cenv)]) (stdout st1)).
Proof.
  intros Hnames Hempty Hatoms Hop.
  assert (Hzip : zip names args = []).
  { destruct Hempty as [-> | ->]; [done|by destruct names]. }
  unfold call, Udf_call. cbn [is_Atom is_List orb].
  unfold bind at 1. unfold eval_each. rewrite Hnames.
  unfold bind at 1. unfold Env_init. rewrite Hzip. cbn [dict_update].
  set (st2 := mkState (heap st1 ++ [mkEnv [] (Some cenv)]) (stdout st1)).
  assert (Hf : heap st2 !! length (heap st1) = Some (mkEnv [] (Some cenv))).
  { simpl. by rewrite list_lookup_middle. }
  rewrite eval_List_snoc. unfold bind at 1.
  rewrite (Atom_eval_empty_env fuel st2 _ _ op Hf eq_refl).
  unfold dispatch.
  rewrite !is_kw_false;
    try (intros [= ->]; eapply Hop; [|reflexivity];
         apply list_elem_of_In; simpl; auto 10).
  destruct (for_each_Atoms_empty fuel st2 _ _ bargs Hf eq_refl Hatoms)
    as [vs Hvs].
  unfold bind. by rewrite Hvs.
Qed.

(** [(f (() (1 2 +) lambda) define)] and then [(f)]. *)
Lemma call_with_empty_frame_witness :
  for_each (fun a => eval 2 a root) [] Program_init = (Ok [], Program_init) /\
  fst (Program_run 3 "(f (() (1 2 +) lambda) define) (f) (1 2 +)" Program_init)
  = Raise AssertionError /\
  fst (Program_run 3 "(1 2 +)" Program_init) = Ok [PInt 3] /\
  fst (call (eval 2)
            (Udf (List [])
                 (List ([Atom (PInt 1); Atom (PInt 2)] ++ [Atom (PStr "+")])) root)
            [] Program_init)
  = Raise AssertionError.
Proof.
  split; [reflexivity|]. split; [reflexivity|]. split; [reflexivity|].
  rewrite (call_with_empty_frame 0 [] [] [] [Atom (PInt 1); Atom (PInt 2)] "+"
             root Program_init Program_init eq_refl (or_introl eq_refl)).
  - reflexivity.
  - by repeat constructor.
  - intros kw Hkw Heq. subst kw. apply list_elem_of_In in Hkw. simpl in Hkw.
    repeat (destruct Hkw as [Hkw|Hkw]; [discriminate|]). done.
Defined.

(** ** More on sessions *)

(** X11. In every store that a session reaches, whether its forms return or
    raise: the [outer] links point to older objects, every closure that is
    stored refers to an object that exists, and the lookup of any symbol
    from any object of the store comes to an end and gives a value, without
    touching the store. *)
Theorem session_store_sound (fuel : nat) (s : string) (st : state)
  (o : outcome (list value)) :
  Program_run fuel s Program_init = (o, st) ->
  heap_wf (heap st) /\
  state_ok st /\
  forall (k : nat) (env : loc) (f : Env) (sym : string),
    heap st !! env = Some f ->
    exists v : value, eval (S k) (Atom (PStr sym)) env st = (Ok v, st).
Proof.
  intros Hrun. destruct (Program_run_ok _ _ _ _ Hrun) as [Hok Hwf].
  split_and!; [done|done|].
  intros k env f sym Hf.
  change (eval (S k) (Atom (PStr sym)) env st)
    with (Atom_eval (PStr sym) (Some env) st).
  unfold Atom_eval. destruct (Env_truth (heap st) (Some env)); [|by eexists].
  pose proof (lookup_lt_Some _ _ _ Hf) as Hlt.
  destruct (Env_find_in_chain _ sym Hwf _ _ _ Hlt Hf) as (l' & f' & -> & _ & ->).
  destruct (dict_get (items f') sym); by eexists.
Qed.

(** A session that defines a closure, calls it, and fails on its last
    form. *)
Lemma session_store_sound_witness :
  let res := Program_run 4 "(f ((x) (x x +) lambda) define) (5 f) (f)"
                         Program_init in
  fst res = Raise AssertionError /\
  length (heap (snd res)) = 3%nat /\
  heap_wf (heap (snd res)).
Proof.
  intros res. split; [reflexivity|]. split; [reflexivity|].
  exact (proj1 (session_store_sound 4 _ (snd res) (fst res)
                  (surjective_pairing res))).
Defined.

(** ** Evaluation leaves objects in place *)

Lemma extends_refl (st : state) : extends st st.
Proof.
  split; [eauto|]. exists []. by rewrite app_nil_r.
Qed.

Lemma extends_trans (st1 st2 st3 : state) :
  extends st1 st2 -> extends st2 st3 -> extends st1 st3.
Proof.
  intros [H1 [o1 E1]] [H2 [o2 E2]]. split.
  - intros l f Hf. destruct (H1 _ _ Hf) as (f1 & Hf1 & Ho1).
    destruct (H2 _ _ Hf1) as (f2 & Hf2 & Ho2). exists f2. split; congruence.
  - exists (o1 ++ o2)%list. by rewrite E2, E1, app_assoc.
Qed.

Lemma steady_lift {A : Type} (o : outcome A) : steady (lift o).
Proof. intros st st' o' [= _ <-]. apply extends_refl. Qed.

Lemma steady_ret {A : Type} (a : A) : steady (ret a).
Proof. apply (steady_lift (Ok a)). Qed.

Lemma steady_raise {A : Type} (e : exn) : steady (@raise A e).
Proof. apply (steady_lift (Raise e)). Qed.

Lemma steady_bind {A B : Type} (m : M A) (k : A -> M B) :
  steady m -> (forall a : A, steady (k a)) -> steady (bind m k).
Proof.
  intros Hm Hk st st' o. unfold bind.
  destruct (m st) as [[a| | |] st1] eqn:E; pose proof (Hm _ _ _ E) as H1.
  - intros Hka. eapply extends_trans; [exact H1|by eapply Hk].
  - by intros [= _ <-].
  - by intros [= _ <-].
  - by intros [= _ <-].
Qed.

Lemma steady_assert (b : bool) : steady (assert b).
Proof. destruct b; [apply steady_ret|apply steady_raise]. Qed.

Lemma steady_for_each {A B : Type} (f : A -> M B) (l : list A) :
  (forall x : A, steady (f x)) -> steady (for_each f l).
Proof.
  intros Hf. induction l as [|x l IH]; simpl; [apply steady_ret|].
  apply steady_bind; [apply Hf|]. intros y.
  apply steady_bind; [apply IH|]. intros ys. apply steady_ret.
Qed.

Lemma steady_Atom_eval (x : value) (env : option loc) :
  steady (Atom_eval x env).
Proof.
  intros st st' o E. assert (st' = st) as ->; [|apply extends_refl].
  unfold Atom_eval in E. repeat case_match; by simplify_eq.
Qed.

Lemma steady_Env_setitem (env : loc) (k v : value) :
  steady (Env_setitem env k v).
Proof.
  intros st st' o. unfold Env_setitem.
  destruct (heap st !! env) as [f|] eqn:Hf;
    [|intros [= _ <-]; apply extends_refl].
  destruct (dict_setitem (items f) k v) as [d| | |];
    intros [= _ <-]; try apply extends_refl.
  split; simpl; [|exists []; by rewrite app_nil_r].
  intros l g Hg. destruct (decide (l = env)) as [->|Hne].
  - rewrite list_lookup_insert_eq by (by eapply lookup_lt_Some).
    eexists. split; [done|]. simpl. congruence.
  - rewrite list_lookup_insert_ne by done. eauto.
Qed.

Lemma steady_Env_init (names args : list value) (outer : option loc) :
  steady (Env_init names args outer).
Proof.
  intros st st' o. unfold Env_init.
  destruct (dict_update [] (zip names args));
    intros [= _ <-]; try apply extends_refl.
  split; simpl; [|exists []; by rewrite app_nil_r].
  intros l g Hg. exists g. split; [|done].
  rewrite lookup_app_l; [done|by eapply lookup_lt_Some].
Qed.

Lemma steady_stdout_append (text : string) : steady (stdout_append text).
Proof.
  intros st st' o [= _ <-]. split; simpl; [eauto|by exists [text]].
Qed.

Lemma steady_call_prim (p : prim) (args : list value) :
  steady (call_prim p args).
Proof.
  destruct p; simpl; repeat case_match;
    try apply steady_lift; try apply steady_raise; try apply steady_ret.
  apply steady_bind; [apply steady_stdout_append|]. intros _. apply steady_ret.
Qed.

Section EvalSteady.

Variable ev : value -> loc -> M value.
Hypothesis ev_steady : forall (e : value) (env : loc), steady (ev e env).

Lemma steady_call (op : value) (values : list value) :
  steady (call ev op values).
Proof.
  destruct op; simpl; try apply steady_raise; [|apply steady_call_prim].
  unfold Udf_call. case_match; [|apply steady_raise].
  apply steady_bind.
  { unfold eval_each. repeat case_match;
      try apply steady_raise; try apply steady_ret.
    by apply steady_for_each. }
  intros names. apply steady_bind; [apply steady_Env_init|].
  intros l. apply ev_steady.
Qed.

Lemma steady_cond_loop (args : list value) (env : loc) :
  steady (cond_loop ev args env).
Proof.
  induction args as [|t args IH]; simpl; [apply steady_ret|].
  apply steady_bind; [apply steady_lift|]. intros test.
  apply steady_bind; [apply ev_steady|]. intros r.
  case_match; [|exact IH].
  apply steady_bind; [apply steady_lift|]. intros res. apply ev_steady.
Qed.

Lemma steady_dispatch (op : value) (args : list value) (env : loc) :
  steady (dispatch ev op args env).
Proof.
  unfold dispatch.
  repeat (case_match;
          [repeat first [ apply steady_bind; [|intros ?]
                        | apply steady_assert | apply steady_lift
                        | apply ev_steady | apply steady_ret
                        | apply steady_Env_setitem
                        | apply steady_cond_loop
                        | case_match ] |]).
  apply steady_bind; [by apply steady_for_each|]. intros values.
  apply steady_bind; [apply steady_assert|]. intros _. apply steady_call.
Qed.

Lemma steady_eval_method (e : value) (env : loc) :
  steady (eval_method ev e env).
Proof.
  destruct e; simpl; try apply steady_raise; [apply steady_Atom_eval|].
  unfold List_eval. case_match; [|apply steady_raise].
  apply steady_bind; [apply ev_steady|]. intros op. apply steady_dispatch.
Qed.

End EvalSteady.

Lemma steady_eval (fuel : nat) :
  forall (e : value) (env : loc), steady (eval fuel e env).
Proof.
  induction fuel as [|fuel IH]; intros e env; simpl.
  - apply steady_lift.
  - by apply steady_eval_method.
Qed.

(** X15. Evaluation never removes or rewires an [Env] object and never
    takes back what was printed: after evaluating any expression, whether
    it returns, raises or runs out of fuel, every object of the store is
    still there with the [outer] it had, and the print buffer has only
    grown at its end. *)
Theorem eval_extends (fuel : nat) (e : value) (env : loc) (st st' : state)
  (o : outcome value) :
  eval fuel e env st = (o, st') ->
  (length (heap st) <= length (heap st'))%nat /\
  (forall (l : loc) (f : Env),
      heap st !! l = Some f ->
      exists f' : Env, heap st' !! l = Some f' /\ outer f' = outer f) /\
  (exists out : list string, stdout st' = (stdout st ++ out)%list).
Proof.
  intros H. destruct (steady_eval fuel e env _ _ _ H) as [Hframes Hout].
  split_and!; [|done|done].
  destruct (decide (length (heap st) <= length (heap st'))%nat) as [|Hn];
    [done|exfalso].
  destruct (heap st) as [|f h] eqn:Eh using rev_ind; [simpl in Hn; lia|].
  destruct (Hframes (length h) f) as (f' & Hf' & _).
  { by rewrite list_lookup_middle. }
  apply lookup_lt_Some in Hf'. rewrite length_app in Hn. simpl in Hn. lia.
Qed.

(** [(hello print)] in a fresh session: the root is kept and one line is
    added to the buffer. *)
Lemma eval_extends_witness :
  let e := List [Atom (PStr "hello"); Atom (PStr "print")] in
  eval 2 e root Program_init
  = (Ok PNone, mkState (heap Program_init) ["hello"]) /\
  exists out : list string, ["hello"] = (stdout Program_init ++ out)%list.
Proof.
  intros e.
  assert (H : eval 2 e root Program_init
              = (Ok PNone, mkState (heap Program_init) ["hello"]))
    by reflexivity.
  split; [exact H|].
  exact (proj2 (proj2 (eval_extends 2 e root _ _ _ H))).
Defined.

(** ** Program texts *)

Lemma scan_join_tokens (ts : list string) :
  Forall token_ok ts -> scan EmptyString (Str.join " " ts) = ts.
Proof.
  induction 1 as [|t [|t' ts] Ht Hts IH]; [done| |].
  - by apply scan_token_end.
  - change (Str.join " " (t :: t' :: ts))
      with (t ++ String " " (Str.join " " (t' :: ts)))%string.
    rewrite scan_token_blank by done. by rewrite IH.
Qed.

Lemma tokens_of_ok (e : value) : tree_ok e -> Forall token_ok (tokens_of e).
Proof.
  induction e as [| | | | |x IH|l IH|a b c IHa IHb|] using value_ind;
    try done.
  - destruct x as [| |z| |s| | | |]; try done; simpl.
    + intros _. constructor; [|done]. right. right. apply of_Z_clean.
    + intros [Hcl _]. constructor; [|done]. by right; right.
  - intros Hok. apply tree_ok_List in Hok. rewrite tokens_of_List.
    constructor; [by left|]. apply Forall_app. split.
    + induction Hok as [|x l Hx Hl IHl]; [constructor|].
      inversion IH; subst. simpl. apply Forall_app. split; auto.
    + constructor; [right; by left|done].
Qed.

Lemma parse_all_trees (es : list value) :
  Forall tree_ok es ->
  forall (fuel : nat) (acc : list value),
    (length es <= fuel)%nat ->
    parse_all fuel acc (concat (tokens_of <$> es)) = Ok (acc ++ es)%list.
Proof.
  induction 1 as [|e es He Hes IH]; intros fuel acc Hlen.
  - simpl. rewrite app_nil_r. by destruct fuel.
  - simpl in Hlen. destruct fuel as [|fuel]; [lia|].
    cbn [fmap list_fmap concat].
    destruct (tokens_of_head _ He) as (t & ts & Hts & _).
    assert (Hp : parse (tokens_of e ++ concat (tokens_of <$> es))
                 = Ok (e, concat (tokens_of <$> es))).
    { unfold parse. apply parse_tokens_of_gen; [done|lia]. }
    assert (Hstep : parse_all (S fuel) acc
                      (tokens_of e ++ concat (tokens_of <$> es))
                    = outcome_bind
                        (parse (tokens_of e ++ concat (tokens_of <$> es)))
                        (fun '(sexp, tokens') =>
                           parse_all fuel (acc ++ [sexp])%list tokens')).
    { by rewrite Hts. }
    rewrite Hstep, Hp. cbn [outcome_bind]. rewrite IH by lia.
    by rewrite <- app_assoc.
Qed.

Lemma tokens_count (es : list value) :
  Forall tree_ok es ->
  (length es <= length (concat (tokens_of <$> es)))%nat.
Proof.
  induction 1 as [|e es He Hes IH]; [done|]. cbn [fmap list_fmap concat].
  destruct (tokens_of_head _ He) as (t & ts & -> & _).
  rewrite length_app. simpl. lia.
Qed.

(** X16. A program text spelled from trees is read back as those trees:
    for a non-empty sequence of trees of integers, symbols and lists, the
    tokens of the trees joined by blanks form a source text from which
    [Program.__init__] builds exactly that sequence of forms. *)
Theorem program_text_roundtrip (es : list value) :
  es <> [] -> Forall tree_ok es ->
  tokenize (Str.join " " (concat (tokens_of <$> es)))
  = concat (tokens_of <$> es) /\
  Program_sexps (Str.join " " (concat (tokens_of <$> es))) = Ok es.
Proof.
  intros Hne Hok.
  assert (Htok : Forall token_ok (concat (tokens_of <$> es))).
  { induction Hok as [|e es He Hes IH]; [constructor|].
    cbn [fmap list_fmap concat]. apply Forall_app. split.
    - by apply tokens_of_ok.
    - destruct es; [constructor|]. by apply IH. }
  assert (Hscan : tokenize (Str.join " " (concat (tokens_of <$> es)))
                  = concat (tokens_of <$> es)).
  { rewrite tokenize_scan. by apply scan_join_tokens. }
  split; [exact Hscan|]. unfold Program_sexps. rewrite Hscan.
  destruct (String.eqb_spec (Str.join " " (concat (tokens_of <$> es)))
              EmptyString) as [Hempty|_].
  - rewrite Hempty in Hscan. destruct es as [|e es]; [done|].
    inversion Hok; subst.
    destruct (tokens_of_head e) as (t & ts & Hts & _); [done|].
    cbn [fmap list_fmap concat] in Hscan. by rewrite Hts in Hscan.
  - rewrite (parse_all_trees es Hok _ []); [done|]. by apply tokens_count.
Qed.

(** The text [( x 5 define ) x]. *)
Lemma program_text_roundtrip_witness :
  let es := [List [Atom (PStr "x"); Atom (PInt 5); Atom (PStr "define")];
             Atom (PStr "x")] in
  Forall tree_ok es /\
  Str.join " " (concat (tokens_of <$> es)) = "( x 5 define ) x" /\
  Program_sexps "( x 5 define ) x" = Ok es.
Proof.
  intros es.
  assert (Hok : Forall tree_ok es).
  { repeat constructor; discriminate. }
  split; [exact Hok|]. split; [reflexivity|].
  exact (proj2 (program_text_roundtrip es ltac:(discriminate) Hok)).
Defined.

(** ** What a define form writes *)








(** ** Keywords are values, not names *)



